(** * ksg-logging: the multi-process logging pipeline of [mproc_logging.py]

    A shallow embedding of the listener loop, the workers and the
    orchestrator of [src/mproc_logging.py], together with the queue and the
    rotating file sink they are bound to, and the properties the
    specification states about them. *)

From Stdlib Require Import List String ZArith Lia Bool Arith PeanoNat DecimalString.
Import ListNotations.
Open Scope string_scope.
Open Scope list_scope.

Set Implicit Arguments.

(** ** Python values that travel through the pipeline *)

Module Py.

(** The exception hierarchy as far as [except Exception] can tell:
    [Exception cls msg] stands for an instance of [Exception] or of one of
    its subclasses ([OSError], [AttributeError], ...); the other three are
    the built-in classes that derive from [BaseException] directly. *)
Inductive BaseException : Type :=
| Exception (cls : string) (msg : string)
| KeyboardInterrupt
| SystemExit (code : Z)
| GeneratorExit.

(** [isinstance(e, Exception)], the test an [except Exception:] clause
    performs. *)
Definition isinstance_Exception (e : BaseException) : bool :=
  match e with
  | Exception _ _ => true
  | _ => false
  end.

(** The result of a call that works on a state of type [S]: it returns
    ([Ret]) or raises ([Raise]); either way the state it leaves behind is
    recorded. *)
Inductive outcome (S : Type) : Type :=
| Ret (s : S)
| Raise (e : BaseException) (s : S).

Arguments Ret {S} s.
Arguments Raise {S} e s.

Definition state_of {S : Type} (o : outcome S) : S :=
  match o with
  | Ret s => s
  | Raise _ s => s
  end.

(** What [sys.stderr] receives: a [print(..., file=sys.stderr)] or a
    [traceback.print_exc(file=sys.stderr)] of the exception being
    handled. *)
Inductive stderr_write : Type :=
| Print (text : string)
| PrintExc (e : BaseException).

End Py.

Import Py.

(** ** Log records *)

(** The attributes of a [logging.LogRecord] that [FMT] and the listener
    read. [asctime] is the rendered creation time. *)
Record LogRecord : Type := mkLogRecord {
  name : string;
  levelno : Z;
  levelname : string;
  process : Z;
  asctime : string;
  message : string
}.

(** The objects found in the queue: [None] (the sentinel), a log record, or
    any other picklable object (which has no [name] attribute). *)
Inductive pyobj : Type :=
| PyNone
| PyLogRecord (r : LogRecord)
| PyOther (repr : string).

(** The [AttributeError] that [record.name] raises on an object without
    that attribute. *)
Definition AttributeError_name : BaseException :=
  Exception "AttributeError" "object has no attribute 'name'".

(** [logging.DEBUG] *)
Definition DEBUG : Z := 10.

(** Module constants of [mproc_logging.py]. *)
Definition FILENAME : string := "mproc_logging.log".
Definition LOGGERS : list string := ["banana"; "ghostwriter"; "superman"].
Definition LEVEL : Z := DEBUG.
Definition FILEROTATION_MAXBYTES : nat := 5000.
Definition FILEROTATION_NBACKUPS : nat := 3.

(** [FMT = Formatter('%(asctime)s - %(name)s - %(levelname)s - %(process)d - %(message)s')];
    the process id is rendered by [show_pid]. *)
Definition FMT (show_pid : Z -> string) (r : LogRecord) : string :=
  asctime r ++ " - " ++ name r ++ " - " ++ levelname r ++ " - "
    ++ show_pid (process r) ++ " - " ++ message r.

(** ** The listener loop *)

Module Listener.

(** One call of [queue.get()] in the listener: it returns the oldest item
    or raises. *)
Inductive get_result : Type :=
| Got (item : pyobj)
| GetRaised (e : BaseException).

(** How a run of [listener_process] ends. [Blocked]: the loop sits in
    [queue.get()] and no further item ever arrives. *)
Inductive exit : Type :=
| Returned
| Propagated (e : BaseException)
| Blocked.

Section Loop.

(** [L] is the state of the logging package in the listener process (the
    handlers of the root logger and the files behind them). *)
Variable L : Type.

(** [handle n r l] is [logging.getLogger(n).handle(r)] run in state
    [l]. *)
Variable handle : string -> LogRecord -> L -> outcome L.

(** The state the loop works on. [popped] and [handled] are history
    variables: the items [queue.get()] returned and the records passed
    to [logger.handle], oldest first. *)
Record state : Type := mkState {
  logging : L;
  stderr : list stderr_write;
  popped : list pyobj;
  handled : list LogRecord
}.

Record run : Type := mkRun {
  how : exit;
  final : state;
  unread : list get_result
}.

(** The body of the [except Exception:] clause. *)
Definition report (e : BaseException) (st : state) : state :=
  mkState (logging st)
          (stderr st ++ [Print "Whoops! Problem:"; PrintExc e])
          (popped st) (handled st).

Definition on_popped (record : pyobj) (st : state) : state :=
  mkState (logging st) (stderr st) (popped st ++ [record]) (handled st).

Definition on_handle (r : LogRecord) (st : state) : state :=
  mkState (logging st) (stderr st) (popped st) (handled st ++ [r]).

Definition with_logging (l : L) (st : state) : state :=
  mkState l (stderr st) (popped st) (handled st).

(** What one pass through the [try] block does after [queue.get()]
    produced [g]: it leaves the loop ([Break]), reaches the end of the
    block ([Fallthrough]) or raises ([Raised]). *)
Inductive pass : Type :=
| Break (st : state)
| Fallthrough (st : state)
| Raised (e : BaseException) (st : state).

Definition try_block (g : get_result) (st : state) : pass :=
  match g with
  | GetRaised e => Raised e st
  | Got record =>
      let st := on_popped record st in
      match record with
      | PyNone => Break st
      | PyOther _ => Raised AttributeError_name st
      | PyLogRecord r =>
          let st := on_handle r st in
          match handle (name r) r (logging st) with
          | Ret l => Fallthrough (with_logging l st)
          | Raise e l => Raised e (with_logging l st)
          end
      end
  end.

(** One iteration of [while True:], the [except Exception:] clause
    included: the loop goes on ([inl]) or the function is left
    ([inr]). *)
Definition iteration (g : get_result) (st : state) : state + (exit * state) :=
  match try_block g st with
  | Break st' => inr (Returned, st')
  | Fallthrough st' => inl st'
  | Raised e st' =>
      if isinstance_Exception e
      then inl (report e st')
      else inr (Propagated e, st')
  end.

(** The loop run against the successive results of [queue.get()]. *)
Fixpoint listener_loop (gets : list get_result) (st : state) : run :=
  match gets with
  | [] => mkRun Blocked st []
  | g :: gets' =>
      match iteration g st with
      | inl st' => listener_loop gets' st'
      | inr (how, st') => mkRun how st' gets'
      end
  end.

(** [listener_process(queue, configurer)]: [configurer()] runs before the
    loop, outside the [try]. *)
Definition listener_process (gets : list get_result)
           (configurer : L -> outcome L) (st : state) : run :=
  match configurer (logging st) with
  | Ret l => listener_loop gets (with_logging l st)
  | Raise e l => mkRun (Propagated e) (with_logging l st) gets
  end.

End Loop.

End Listener.

(** ** The rotating sink *)

Module RotatingSink.

(** A file is the list of the texts appended to it, oldest first. *)
Definition file : Type := list string.

Definition bytes (f : file) : nat :=
  fold_right (fun text n => String.length text + n) 0 f.

(** Modelled from the spec: the rotation state of
    [logging.handlers.RotatingFileHandler], a class of the Python standard
    library that the source only constructs. The fields are the spec's
    RotationState: the active file, its byte-size counter, the backups
    (backup 1, the newest, is the head of the list; the highest index is
    the oldest), the max-bytes threshold and the max-backups count, with
    the formatter that serializes an event. *)
Record t : Type := mk {
  path : string;
  formatter : LogRecord -> string;
  active : file;
  size : nat;
  backups : list file;
  max_bytes : nat;
  max_backups : nat
}.

(** Modelled from the spec: [RotatingFileHandler(filename, mode,
    maxBytes, backupCount)] followed by [setFormatter(fmt)], standard
    library code. Mode [a] keeps what the file and its backups already
    hold. *)
Definition open (filename : string) (fmt : LogRecord -> string)
           (maxBytes backupCount : nat) (existing : file)
           (existing_backups : list file) : t :=
  mk filename fmt existing (bytes existing) existing_backups maxBytes backupCount.

(** Modelled from the spec: the rotation algorithm of the standard
    library handler. Close the active file; shift the existing backups up
    by one index up to max-backups, discarding the oldest beyond that
    count; rename the active file to backup 1; open a new empty active file
    and reset the byte counter. With max-backups 0 the active file is
    truncated in place instead. *)
Definition rotate (s : t) : t :=
  if (max_backups s =? 0)%nat
  then mk (path s) (formatter s) [] 0 (backups s) (max_bytes s) (max_backups s)
  else mk (path s) (formatter s) [] 0
          (firstn (max_backups s) (active s :: backups s))
          (max_bytes s) (max_backups s).

(** An event is serialized to one newline-terminated line. *)
Definition newline : string := String (Ascii.ascii_of_nat 10) EmptyString.

Definition serialize (s : t) (event : LogRecord) : string :=
  formatter s event ++ newline.

Definition append (text : string) (s : t) : t :=
  mk (path s) (formatter s) (active s ++ [text]) (size s + String.length text)
     (backups s) (max_bytes s) (max_backups s).

(** Modelled from the spec: [write(event)], the [emit] of the standard
    library handler. The event is serialized and appended to the active
    file, then the sink checks whether the current size exceeds max-bytes
    and rotates if it does. *)
Definition write_text (text : string) (s : t) : t :=
  let s1 := append text s in
  if (max_bytes s1 <? size s1)%nat then rotate s1 else s1.

(** Modelled from the spec: [write(event)] on an event, the serialized
    line handed to [write_text]. *)
Definition write (event : LogRecord) (s : t) : t :=
  write_text (serialize s event) s.

(** Modelled from the spec: the failure mode of [write]. When the
    filesystem denies write access the write fails with an I/O error and
    the sink is left as it was; there is no retry. *)
Definition try_write (denied : bool) (event : LogRecord) (s : t) : outcome t :=
  if denied
  then Raise (Exception "OSError" "write access denied") s
  else Ret (write event s).

(** Did writing [text] to [s] trigger a rotation? *)
Definition crosses (text : string) (s : t) : bool :=
  (max_bytes s <? size s + String.length text)%nat.

(** All the files of the sink: the active file, then the backups from the
    newest to the oldest. *)
Definition files (s : t) : list file := active s :: backups s.

(** The writes of [texts], in turn. *)
Definition write_texts (texts : list string) (s : t) : t :=
  fold_left (fun s text => write_text text s) texts s.

(** The number of rotations that writing [texts] in turn triggers. *)
Fixpoint rotations (texts : list string) (s : t) : nat :=
  match texts with
  | [] => 0
  | text :: texts' =>
      (if crosses text s then 1 else 0) + rotations texts' (write_text text s)
  end.

End RotatingSink.

(** ** The script [rotating_logging.py] *)

Module RotatingLogging.

Definition filename : string := "rotating_logging.log".

(** [Formatter('%(asctime)s - %(name)s - %(levelname)s - %(message)s')] *)
Definition fmt (r : LogRecord) : string :=
  asctime r ++ " - " ++ name r ++ " - " ++ levelname r ++ " - " ++ message r.

(** [rh = RotatingFileHandler(filename=filename, maxBytes=300, backupCount=10)]
    with [rh.setFormatter(fmt)], on a directory that holds no log yet. *)
Definition rh : RotatingSink.t :=
  RotatingSink.open filename fmt 300 10 [] [].

(** [f"{i:3}"]: the number right-aligned in a field of width 3. *)
Definition show_width3 (i : nat) : string :=
  let d := NilZero.string_of_uint (Nat.to_uint i) in
  (match String.length d with
   | 0 => "   "
   | 1 => "  "
   | 2 => " "
   | _ => EmptyString
   end ++ d)%string.

(** The record of [logger.debug(f"Hello, World! (count: {i:3})")]; [clock]
    gives the time of day of each call. *)
Definition record (clock : nat -> string) (pid : Z) (i : nat) : LogRecord :=
  mkLogRecord "__main__" 10 "DEBUG" pid (clock i)
              ("Hello, World! (count: " ++ show_width3 i ++ ")").

(** The loop of the script: [for i in range(100): logger.debug(...)], each
    record written by [rh]. (What the console handler installed by
    [basicConfig] prints is left out.) *)
Definition main (clock : nat -> string) (pid : Z) : RotatingSink.t :=
  fold_left (fun s i => RotatingSink.write (record clock pid i) s) (seq 0 100) rh.

End RotatingLogging.

(** ** The aggregator queue *)

Module AggregatorQueue.

(** Modelled from the spec: [multiprocessing.Queue], a class of the Python
    standard library that the source only constructs and calls. The queue
    is an ordered buffer of items, the oldest at the head; a [maxsize]
    that is not positive, as in the source's [Queue(-1)], is the unbounded
    queue of the reference design. *)
Record t : Type := mk {
  maxsize : Z;
  items : list pyobj
}.

(** [multiprocessing.Queue(maxsize)] *)
Definition Queue (maxsize : Z) : t := mk maxsize [].

Definition full (q : t) : bool :=
  ((0 <? maxsize q) && (maxsize q <=? Z.of_nat (List.length (items q))))%Z.

(** Modelled from the spec: push ([put_nowait]). It never waits; on a
    bounded queue that is full it fails ([None], the [queue.Full] of the
    standard library), on the unbounded queue it always succeeds. *)
Definition put_nowait (item : pyobj) (q : t) : option t :=
  if full q then None else Some (mk (maxsize q) (items q ++ [item])).

(** Modelled from the spec: pop ([get]). It hands out the oldest item;
    on an empty queue there is no result and the caller waits ([None])
    until an item is available. *)
Definition get (q : t) : option (pyobj * t) :=
  match items q with
  | [] => None
  | item :: rest => Some (item, mk (maxsize q) rest)
  end.

(** The use of the queue over time: pushes, each by a producer, and
    pops. *)
Inductive op : Type :=
| Push (producer : nat) (item : pyobj)
| Pop.

(** The pushes of a run, each with its producer, in the order made. *)
Definition pushed (ops : list op) : list (nat * pyobj) :=
  flat_map (fun o => match o with Push p item => [(p, item)] | Pop => [] end) ops.

(** A run of operations: the items handed out, in order, and the queue
    left; [None] when a push failed. A pop on the empty queue hands out
    nothing: its caller is left waiting. *)
Fixpoint run (ops : list op) (q : t) : option (list pyobj * t) :=
  match ops with
  | [] => Some ([], q)
  | Push _ item :: ops' =>
      match put_nowait item q with
      | None => None
      | Some q' => run ops' q'
      end
  | Pop :: ops' =>
      match get q with
      | None => run ops' q
      | Some (item, q') =>
          match run ops' q' with
          | None => None
          | Some (out, q'') => Some (item :: out, q'')
          end
      end
  end.

(** The part of a tagged sequence that belongs to producer [p]. *)
Definition of_producer (p : nat) (tagged : list (nat * pyobj)) : list pyobj :=
  map snd (filter (fun x => (fst x =? p)%nat) tagged).

End AggregatorQueue.

(** ** The logging package in the listener process *)

(** Rendering of integers in decimal, as [%d] and f-strings do. *)
Definition show_Z (z : Z) : string := NilZero.string_of_int (Z.to_int z).
Definition show_nat (n : nat) : string := NilZero.string_of_uint (Nat.to_uint n).

(** What the listener finds when it opens [FILENAME]: whether the file can
    be opened at all, and what it and its backups hold from earlier runs. *)
Record Disk : Type := mkDisk {
  openable : bool;
  existing : RotatingSink.file;
  existing_backups : list RotatingSink.file
}.

(** The logging state of the listener process: the handler attached to the
    root logger, if any, and for each coming write whether the filesystem
    will deny it (no entry: it will not). *)
Record Logging : Type := mkLogging {
  root_handler : option RotatingSink.t;
  fs_denies : list bool
}.

(** [listener_configurer()]: a rotating file handler on [FILENAME] with
    [FMT], attached to the root logger. Opening the file is the step that
    can fail. *)
Definition listener_configurer (disk : Disk) (l : Logging) : outcome Logging :=
  if openable disk
  then
    let fh := RotatingSink.open FILENAME (FMT show_Z) FILEROTATION_MAXBYTES
                                FILEROTATION_NBACKUPS (existing disk)
                                (existing_backups disk) in
    Ret (mkLogging (Some fh) (fs_denies l))
  else Raise (Exception "OSError" "cannot open the log file") l.

(** Modelled from the spec: [logging.getLogger(n).handle(record)], standard
    library code. On each dispatch the event is forwarded to the write of the
    rotating sink, whatever the logger's name and the record's level; a
    failure of the write is raised to the caller. *)
Definition Logger_handle (n : string) (record : LogRecord) (l : Logging) : outcome Logging :=
  match root_handler l with
  | None => Ret l
  | Some fh =>
      match RotatingSink.try_write (hd false (fs_denies l)) record fh with
      | Ret fh' => Ret (mkLogging (Some fh') (tl (fs_denies l)))
      | Raise e fh' => Raise e (mkLogging (Some fh') (tl (fs_denies l)))
      end
  end.

(** ** The workers *)

Module Worker.

(** [logging.WARNING], the level of the root logger before any
    configuration. *)
Definition WARNING : Z := 30.

(** [logging.getLevelName] on the standard levels. *)
Definition getLevelName (level : Z) : string :=
  if (level =? 50)%Z then "CRITICAL"
  else if (level =? 40)%Z then "ERROR"
  else if (level =? 30)%Z then "WARNING"
  else if (level =? 20)%Z then "INFO"
  else if (level =? 10)%Z then "DEBUG"
  else if (level =? 0)%Z then "NOTSET"
  else ("Level " ++ show_Z level)%string.

(** The logging state of a worker process: the level of the root logger
    and the number of queue handlers attached to it. *)
Record Logging : Type := mkLogging {
  root_level : Z;
  queue_handlers : nat
}.

Definition unconfigured : Logging := mkLogging WARNING 0.

(** [worker_configurer(queue)] *)
Definition worker_configurer (l : Logging) : Logging :=
  let l := mkLogging (root_level l) (queue_handlers l + 1) in
  mkLogging DEBUG (queue_handlers l).

(** What a worker process takes from its environment: the name and the
    id of the process, and at each step of its loop the value of
    [random()] as the f-string prints it, the index [choice] picks in
    [LOGGERS] and the time of day. *)
Record Env : Type := mkEnv {
  proc_name : string;
  pid : Z;
  random : nat -> string;
  choice : nat -> nat;
  clock : nat -> string
}.

(** Modelled from the spec: [Logger.log(level, msg)] on a logger that
    inherits the level and the handlers of the root logger, standard
    library code. The severity filter is applied before the enqueue: below
    the level no record is made; otherwise each queue handler pushes one
    record. The result lists the records pushed. *)
Definition Logger_log (l : Logging) (env : Env) (i : nat) (logger : string)
           (level : Z) (msg : string) : list LogRecord :=
  if (root_level l <=? level)%Z
  then repeat (mkLogRecord logger level (getLevelName level) (pid env) (clock env i) msg)
              (queue_handlers l)
  else [].

Definition dquote : string := String (Ascii.ascii_of_nat 34) EmptyString.

(** The body of the loop of [worker_process] at step [i]: the records it
    pushes into the queue. *)
Definition worker_step (l : Logging) (env : Env) (i : nat) : list LogRecord :=
  let sleeping_time := random env i in
  let logger := nth (choice env i mod List.length LOGGERS) LOGGERS EmptyString in
  let message :=
    ("Child proces " ++ dquote ++ proc_name env ++ dquote ++ " step " ++ show_nat i
       ++ ": slept for " ++ sleeping_time ++ "[s] ")%string in
  Logger_log l env i logger LEVEL message.

(** [worker_process(queue, configurer)] with the bound of its loop as a
    parameter: the records the process pushes, in the order it pushes
    them. *)
Definition worker_process_with (nsteps : nat) (configurer : Logging -> Logging)
           (env : Env) : list LogRecord :=
  let l := configurer unconfigured in
  flat_map (worker_step l env) (seq 0 nsteps).

(** The source loops over [range(10)]. *)
Definition worker_process : (Logging -> Logging) -> Env -> list LogRecord :=
  worker_process_with 10.

End Worker.

(** ** The orchestrator *)

Module Orchestrator.

(** The processes [main] creates. *)
Inductive proc : Type :=
| ListenerProc
| WorkerProc (i : nat).

(** What [main] does to the queue and to the processes. *)
Inductive action : Type :=
| NewQueue (maxsize : Z)
| Start (p : proc)
| Join (p : proc)
| PutNowait (item : pyobj).

(** [main] as a program that logs its actions; [spawned] counts the worker
    processes created so far. *)
Record st : Type := mkSt {
  spawned : nat;
  trace : list action
}.

Definition M (A : Type) : Type := st -> A * st.

Definition ret {A : Type} (a : A) : M A := fun s => (a, s).

Definition bind {A B : Type} (m : M A) (k : A -> M B) : M B :=
  fun s => let (a, s') := m s in k a s'.

Definition emit (a : action) : M unit :=
  fun s => (tt, mkSt (spawned s) (trace s ++ [a])).

Declare Scope orch_scope.
Delimit Scope orch_scope with orch.
Notation "x <- m ;; k" := (bind m (fun x => k))
  (at level 61, m at next level, right associativity) : orch_scope.
Notation "m ;; k" := (bind m (fun _ => k))
  (at level 61, right associativity) : orch_scope.
Local Open Scope orch_scope.

Definition Queue (maxsize : Z) : M unit := emit (NewQueue maxsize).

(** [multiprocessing.Process(target=listener_process, ...)] *)
Definition Process_listener : M proc := ret ListenerProc.

(** [multiprocessing.Process(target=worker_process, ...)] *)
Definition Process_worker : M proc :=
  fun s => (WorkerProc (spawned s), mkSt (spawned s + 1) (trace s)).

Definition start (p : proc) : M unit := emit (Start p).
Definition join (p : proc) : M unit := emit (Join p).
Definition put_nowait (item : pyobj) : M unit := emit (PutNowait item).

(** [for _ in range(n): acc = body(acc)] *)
Fixpoint for_range {A : Type} (n : nat) (body : A -> M A) (acc : A) : M A :=
  match n with
  | O => ret acc
  | S n' => acc' <- body acc ;; for_range n' body acc'
  end.

(** [for x in xs: body(x)] *)
Fixpoint for_each {A : Type} (xs : list A) (body : A -> M unit) : M unit :=
  match xs with
  | [] => ret tt
  | x :: xs' => body x ;; for_each xs' body
  end.

(** [main()] with the number of workers as a parameter. *)
Definition main_with (nworkers : nat) : M unit :=
  Queue (-1) ;;
  listener <- Process_listener ;;
  start listener ;;
  workers <- for_range nworkers
               (fun workers =>
                  wrk <- Process_worker ;;
                  let workers := workers ++ [wrk] in
                  start wrk ;;
                  ret workers)
               [] ;;
  for_each workers join ;;
  put_nowait PyNone ;;
  join listener.

(** The source loops over [range(10)]. *)
Definition main : M unit := main_with 10.

Definition start_worker (i : nat) : action := Start (WorkerProc i).
Definition join_worker (i : nat) : action := Join (WorkerProc i).

(** The actions of a run of [main], in the order it performs them. *)
Definition actions (nworkers : nat) : list action :=
  trace (snd (main_with nworkers (mkSt 0 []))).

End Orchestrator.

(** ** The processes running together *)

(** [main], the listener and the workers are separate processes that share
    the queue. A state of the whole records where [main] stands in its run,
    what the queue holds and how far each process has come; a step is taken
    by one process at a time, in any order: an action of [main], one pass
    through a worker's loop (its sleep left out), the call of the listener's
    configurer, or one iteration of the listener's loop on the item it
    pops. *)

Module System.

Import Listener Orchestrator.

(** Who takes the next step. *)
Inductive agent : Type :=
| Main
| Worker (i : nat)
| ListenerAgent.

(** A worker process: not started, in its loop with [i] steps done, or
    exited. *)
Inductive wstatus : Type :=
| WNotStarted
| WRunning (i : nat)
| WExited.

Section Processes.

Variable L : Type.
Variable handle : string -> LogRecord -> L -> outcome L.
Variable configurer : L -> outcome L.

(** The logging state a fresh listener process starts from. *)
Variable l0 : L.

(** The number of workers and the bound of each worker's loop (both 10
    in the source), and the environment of each worker. *)
Variable nworkers nsteps : nat.
Variable envs : nat -> Worker.Env.

(** The listener process: not started, started and about to call
    [configurer()], in its loop, or exited. *)
Inductive lstatus : Type :=
| LNotStarted
| LStarted
| LRunning (st : state L)
| LExited (how : exit) (st : state L).

Record t : Type := mk {
  pc : nat;
  queue : option AggregatorQueue.t;
  listener : lstatus;
  workers : nat -> wstatus
}.

Definition init : t :=
  mk 0 None LNotStarted (fun _ => WNotStarted).

Definition set_worker (i : nat) (w : wstatus) (ws : nat -> wstatus) : nat -> wstatus :=
  fun j => if (j =? i)%nat then w else ws j.

(** Modelled from the spec: [QueueHandler.enqueue], standard library
    code. A worker pushes each record with [put_nowait]; a record that a
    bounded queue refuses is dropped (the unbounded queue of the source
    refuses none). *)
Fixpoint enqueue (rs : list LogRecord) (q : AggregatorQueue.t) : AggregatorQueue.t :=
  match rs with
  | [] => q
  | r :: rs' =>
      match AggregatorQueue.put_nowait (PyLogRecord r) q with
      | Some q' => enqueue rs' q'
      | None => enqueue rs' q
      end
  end.

(** Modelled from the spec: [Process.start] and [Process.join] of
    [multiprocessing], standard library code, as the actions of [main] use
    them. A process runs once started; [join] waits until the process has
    exited, however it ended. The result is the state after the next action
    of [main], or [None] where the action has to wait or cannot be taken. *)
Definition step_main (s : t) : option t :=
  match nth_error (actions nworkers) (pc s) with
  | None => None
  | Some (NewQueue maxsize) =>
      Some (mk (S (pc s)) (Some (AggregatorQueue.Queue maxsize)) (listener s) (workers s))
  | Some (Start ListenerProc) =>
      match listener s with
      | LNotStarted => Some (mk (S (pc s)) (queue s) LStarted (workers s))
      | _ => None
      end
  | Some (Start (WorkerProc i)) =>
      match workers s i with
      | WNotStarted =>
          Some (mk (S (pc s)) (queue s) (listener s) (set_worker i (WRunning 0) (workers s)))
      | _ => None
      end
  | Some (Join ListenerProc) =>
      match listener s with
      | LExited _ _ => Some (mk (S (pc s)) (queue s) (listener s) (workers s))
      | _ => None
      end
  | Some (Join (WorkerProc i)) =>
      match workers s i with
      | WExited => Some (mk (S (pc s)) (queue s) (listener s) (workers s))
      | _ => None
      end
  | Some (PutNowait item) =>
      match queue s with
      | None => None
      | Some q =>
          match AggregatorQueue.put_nowait item q with
          | None => None
          | Some q' => Some (mk (S (pc s)) (Some q') (listener s) (workers s))
          end
      end
  end.

(** The next step of worker [i]: one pass through the loop of
    [worker_process], or the end of the process when the loop is
    done. *)
Definition step_worker (i : nat) (s : t) : option t :=
  match workers s i, queue s with
  | WRunning k, Some q =>
      if (k <? nsteps)%nat
      then
        let l := Worker.worker_configurer Worker.unconfigured in
        let q' := enqueue (Worker.worker_step l (envs i) k) q in
        Some (mk (pc s) (Some q') (listener s) (set_worker i (WRunning (S k)) (workers s)))
      else Some (mk (pc s) (queue s) (listener s) (set_worker i WExited (workers s)))
  | _, _ => None
  end.

(** The state of the listener when its process starts. *)
Definition start_state : state L := mkState l0 [] [] [].

(** The next step of the listener process: the call of [configurer()],
    then one iteration of the loop per item; [None] while [queue.get()]
    waits on the empty queue. *)
Definition step_listener (s : t) : option t :=
  match listener s with
  | LStarted =>
      let st := start_state in
      match configurer (logging st) with
      | Ret l => Some (mk (pc s) (queue s) (LRunning (with_logging l st)) (workers s))
      | Raise e l =>
          Some (mk (pc s) (queue s) (LExited (Propagated e) (with_logging l st)) (workers s))
      end
  | LRunning st =>
      match queue s with
      | None => None
      | Some q =>
          match AggregatorQueue.get q with
          | None => None
          | Some (item, q') =>
              match iteration handle (Got item) st with
              | inl st' => Some (mk (pc s) (Some q') (LRunning st') (workers s))
              | inr (how, st') => Some (mk (pc s) (Some q') (LExited how st') (workers s))
              end
          end
      end
  | _ => None
  end.

Definition step (a : agent) (s : t) : option t :=
  match a with
  | Main => step_main s
  | Worker i => step_worker i s
  | ListenerAgent => step_listener s
  end.

(** A run under a schedule: [None] when the schedule asks for a step
    that cannot be taken. *)
Fixpoint exec (sched : list agent) (s : t) : option t :=
  match sched with
  | [] => Some s
  | a :: sched' =>
      match step a s with
      | None => None
      | Some s' => exec sched' s'
      end
  end.

(** [main] has returned. *)
Definition main_done (s : t) : Prop :=
  pc s = List.length (actions nworkers).

(** A state is reachable when some schedule leads to it. *)
Definition reachable (s : t) : Prop :=
  exists sched, exec sched init = Some s.

(** The number of loop steps a worker has completed. *)
Definition done_steps (w : wstatus) : nat :=
  match w with
  | WNotStarted => 0
  | WRunning k => k
  | WExited => nsteps
  end.

(** The records pushed by the loop steps [order], each a pair of a
    worker and a step of its loop, in that order. *)
Definition emitted (order : list (nat * nat)) : list LogRecord :=
  flat_map (fun ik => Worker.worker_step
                        (Worker.worker_configurer Worker.unconfigured)
                        (envs (fst ik)) (snd ik))
           order.

(** The loop steps of worker [i] among [order]. *)
Definition steps_of (i : nat) (order : list (nat * nat)) : list nat :=
  map snd (filter (fun ik => (fst ik =? i)%nat) order).

(** The items the listener has popped so far. *)
Definition consumed (ls : lstatus) : list pyobj :=
  match ls with
  | LRunning st | LExited _ st => popped st
  | _ => []
  end.

(** The items waiting in the queue. *)
Definition queued (s : t) : list pyobj :=
  match queue s with
  | Some q => AggregatorQueue.items q
  | None => []
  end.

(** [main] has pushed the sentinel. *)
Definition sentinel_pushed (s : t) : bool :=
  (2 * nworkers + 2 <? pc s)%nat.

(** A bound on the number of steps the processes can still take:
    each action of [main] counts twice, each loop step of a worker twice
    and its exit once, the call of the configurer once, and each item
    in the queue once. *)
Definition worker_measure (w : wstatus) : nat :=
  match w with
  | WNotStarted => 2 * nsteps + 1
  | WRunning k => 2 * (nsteps - k) + 1
  | WExited => 0
  end.

Definition listener_measure (ls : lstatus) : nat :=
  match ls with
  | LNotStarted | LStarted => 1
  | _ => 0
  end.

Definition measure (s : t) : nat :=
  2 * (2 * nworkers + 4 - pc s)
  + list_sum (map (fun i => worker_measure (workers s i)) (seq 0 nworkers))
  + listener_measure (listener s)
  + List.length (queued s).

(** What holds in every reachable state. *)
Record invariant (s : t) : Prop := mkInvariant {
  inv_pc : pc s <= 2 * nworkers + 4;
  inv_queue :
    match queue s with
    | None => pc s = 0
    | Some q => 0 < pc s /\ AggregatorQueue.maxsize q = (-1)%Z
    end;
  inv_listener_started : listener s = LNotStarted <-> pc s <= 1;
  inv_listener_joined :
    pc s = 2 * nworkers + 4 -> exists x st, listener s = LExited x st;
  inv_workers :
    forall i,
      match workers s i with
      | WNotStarted => ~ (i < nworkers /\ i + 2 < pc s)
      | WRunning k =>
          i < nworkers /\ i + 2 < pc s /\ k <= nsteps /\ pc s <= 2 + nworkers + i
      | WExited => i < nworkers /\ i + 2 < pc s
      end;
  inv_stream :
    exists order,
      (forall i, steps_of i order = seq 0 (done_steps (workers s i)))
      /\ consumed (listener s) ++ queued s
         = map PyLogRecord (emitted order)
             ++ (if sentinel_pushed s then [PyNone] else []);
  inv_listener :
    match listener s with
    | LRunning st =>
        exists lc,
          configurer l0 = Ret lc
          /\ forall rest,
              listener_loop handle (map Got (popped st) ++ rest)
                            (with_logging lc start_state)
              = listener_loop handle rest st
    | LExited x st =>
        x <> Blocked
        /\ forall rest,
            listener_process handle (map Got (popped st) ++ rest) configurer start_state
            = mkRun x st rest
    | _ => True
    end
}.

End Processes.

End System.

(** ** Vocabulary of the statements *)

Section Vocabulary.

Variable L : Type.
Variable handle : string -> LogRecord -> L -> outcome L.

(** The queue results that carry the records [evs], in order. *)
Definition got_records (evs : list LogRecord) : list Listener.get_result :=
  map (fun r => Listener.Got (PyLogRecord r)) evs.

(** Every failure of [handle] is an instance of [Exception]. *)
Definition raises_only_Exception : Prop :=
  forall n r l e l', handle n r l = Raise e l' -> isinstance_Exception e = true.

(** The logging state after [handle] has been given each record of [evs]
    in turn, whether it returned or raised. *)
Definition handle_each (evs : list LogRecord) (l : L) : L :=
  fold_left (fun l r => state_of (handle (name r) r l)) evs l.

(** The logging state after [handle] has been given each record of [evs]
    in turn and returned each time; [None] if one of the calls raised. *)
Fixpoint handle_all (evs : list LogRecord) (l : L) : option L :=
  match evs with
  | [] => Some l
  | r :: evs' =>
      match handle (name r) r l with
      | Ret l' => handle_all evs' l'
      | Raise _ _ => None
      end
  end.

(** What the [except] clause has printed for the failures met while [evs]
    were handled from state [l]. *)
Fixpoint diagnostics (evs : list LogRecord) (l : L) : list stderr_write :=
  match evs with
  | [] => []
  | r :: evs' =>
      match handle (name r) r l with
      | Ret l' => diagnostics evs' l'
      | Raise e l' => Print "Whoops! Problem:" :: PrintExc e :: diagnostics evs' l'
      end
  end.

(** No run of the loop is left by an exception. *)
Definition no_exception_exit : Prop :=
  forall (gets : list Listener.get_result) (st : Listener.state L),
    match Listener.how (Listener.listener_loop handle gets st) with
    | Listener.Propagated _ => False
    | _ => True
    end.

End Vocabulary.

(** A decision procedure for lists of lines without repetition. *)
Fixpoint distinct (lines : list string) : bool :=
  match lines with
  | [] => true
  | line :: rest => negb (existsb (String.eqb line) rest) && distinct rest
  end.

(** A failure of the configurer keeps every worker from starting: the
    reading of "a startup failure aborts the whole system before any worker
    starts". *)
Definition startup_failure_stops_the_workers
           (L : Type) (handle : string -> LogRecord -> L -> outcome L)
           (configurer : L -> outcome L) (l0 : L) (nworkers nsteps : nat)
           (envs : nat -> Worker.Env) : Prop :=
  forall e l sched s,
    configurer l0 = Raise e l ->
    System.exec handle configurer l0 nworkers nsteps envs sched (System.init L) = Some s ->
    forall i, System.workers s i = System.WNotStarted.

(** ** Sample data *)

Module Sample.

(** A worker environment: process [Process-k] with id [1000 + k], a
    sleeping time printed as [0.5], the loggers taken in turn and the
    step number as time of day. *)
Definition env (k : nat) : Worker.Env :=
  Worker.mkEnv ("Process-" ++ show_nat k)%string (1000 + Z.of_nat k) (fun _ => "0.5")
               (fun i => i) (fun i => "12:00:" ++ show_nat i)%string.

(** The record worker [k] pushes at step [i]. *)
Definition record (k i : nat) : LogRecord :=
  hd (mkLogRecord EmptyString 0 EmptyString 0 EmptyString EmptyString)
     (Worker.worker_step (Worker.worker_configurer Worker.unconfigured) (env k) i).

Definition records (k n : nat) : list LogRecord :=
  map (record k) (seq 0 n).

(** An empty directory where the log file can be created, and one where
    it cannot be opened. *)
Definition fresh_disk : Disk := mkDisk true [] [].
Definition locked_disk : Disk := mkDisk false [] [].

(** The logging state of a process that has configured nothing, with the
    filesystem denying the writes that [denies] marks. *)
Definition unconfigured (denies : list bool) : Logging := mkLogging None denies.

(** The logging state of the listener after [listener_configurer()] on the
    fresh disk. *)
Definition configured (denies : list bool) : Logging :=
  state_of (listener_configurer fresh_disk (unconfigured denies)).

Definition start (l : Logging) : Listener.state Logging :=
  Listener.mkState l [] [] [].

(** A schedule for three workers of five steps each: the processes are
    started, the workers take their steps in turn while the listener
    handles one record per round, the workers exit, the listener handles
    the records left, and [main] joins the workers, pushes the sentinel
    and joins the listener once it has read it. *)
Definition schedule_3x5 : list System.agent :=
  [System.Main; System.Main; System.ListenerAgent;
   System.Main; System.Main; System.Main]
    ++ flat_map (fun _ : nat =>
                   [System.Worker 0; System.Worker 1; System.Worker 2;
                    System.ListenerAgent])
                (seq 0 5)
    ++ [System.Worker 0; System.Worker 1; System.Worker 2]
    ++ repeat System.ListenerAgent 10
    ++ [System.Main; System.Main; System.Main; System.Main;
        System.ListenerAgent; System.Main].

(** A schedule for the ten workers of ten steps of the source in which the
    listener takes a single step, the call of the configurer: every worker
    runs to its end, one after the other, and [main] goes through all its
    actions. *)
Definition schedule_listener_configures_only : list System.agent :=
  [System.Main; System.Main; System.ListenerAgent]
    ++ repeat System.Main 10
    ++ flat_map (fun i => repeat (System.Worker i) 11) (seq 0 10)
    ++ repeat System.Main 12.

End Sample.


(** ** Vocabulary of the statements on the listener's bookkeeping *)

(** The log records among the items popped, in order. *)
Definition records_of (items : list pyobj) : list LogRecord :=
  flat_map (fun o => match o with PyLogRecord r => [r] | _ => [] end) items.

(** The objects without a [name] attribute among the items popped. *)
Definition malformed_of (items : list pyobj) : list pyobj :=
  filter (fun o => match o with PyOther _ => true | _ => false end) items.

(** The items that a run of calls of [queue.get()] handed out. *)
Definition items_of (gets : list Listener.get_result) : list pyobj :=
  flat_map (fun g => match g with Listener.Got item => [item] | Listener.GetRaised _ => [] end)
           gets.

(** What the [except] clause prints for the exceptions [es], in turn. *)
Definition reports (es : list BaseException) : list stderr_write :=
  flat_map (fun e => [Print "Whoops! Problem:"; PrintExc e]) es.

(** A call of [queue.get()] that does not hand out the sentinel and does not
    raise past [except Exception]. *)
Definition keeps_looping (g : Listener.get_result) : Prop :=
  match g with
  | Listener.Got PyNone => False
  | Listener.Got _ => True
  | Listener.GetRaised e => isinstance_Exception e = true
  end.

(** The records the listener of a system state has handed to
    [logger.handle]. *)
Definition handled_by (L : Type) (ls : System.lstatus L) : list LogRecord :=
  match ls with
  | System.LRunning st | System.LExited _ st => Listener.handled st
  | _ => []
  end.

(** ** Sample runs *)

(** The state a schedule leads to, for three workers of five steps each on
    the fresh disk with no write denied; the start state if the schedule
    cannot be run. *)
Definition run_3x5 (sched : list System.agent) : System.t Logging :=
  match System.exec Logger_handle (listener_configurer Sample.fresh_disk)
                    (mkLogging None []) 3 5 Sample.env sched (System.init Logging) with
  | Some s => s
  | None => System.init Logging
  end.

(** The state of the listener of a system state once it has started its
    loop. *)
Definition listener_state_of (s : System.t Logging) : Listener.state Logging :=
  match System.listener s with
  | System.LRunning st | System.LExited _ st => st
  | _ => Sample.start (mkLogging None [])
  end.

(** Records at four levels, from [NOTSET] to [CRITICAL], as another process
    could have pushed them. *)
Definition records_at_all_levels : list LogRecord :=
  map (fun level => mkLogRecord "banana" level (Worker.getLevelName level) 1000
                                "12:00:00" "hello")
      [0; 10; 30; 50]%Z.
(** ** The listener loop: facts *)

Section ListenerFacts.

Import Listener.

Variable L : Type.
Variable handle : string -> LogRecord -> L -> outcome L.

Lemma iteration_record_caught (r : LogRecord) (st : state L) :
  raises_only_Exception handle ->
  exists st',
    iteration handle (Got (PyLogRecord r)) st = inl st' /\
    logging st' = state_of (handle (name r) r (logging st)) /\
    popped st' = popped st ++ [PyLogRecord r] /\
    handled st' = handled st ++ [r] /\
    stderr st' = stderr st ++ diagnostics handle [r] (logging st).
Proof.
  intros Hc. unfold iteration, try_block. cbn [logging on_handle on_popped].
  destruct (handle (name r) r (logging st)) as [l|e l] eqn:Hh.
  - eexists; split; [reflexivity|]. cbn. rewrite Hh. cbn.
    rewrite app_nil_r. auto.
  - rewrite (Hc _ _ _ _ _ Hh).
    eexists; split; [reflexivity|]. cbn. rewrite Hh. cbn. auto.
Qed.

Lemma handle_each_snoc_cons (r : LogRecord) (evs : list LogRecord) (l : L) :
  handle_each handle (r :: evs) l
  = handle_each handle evs (state_of (handle (name r) r l)).
Proof. reflexivity. Qed.

Lemma diagnostics_cons (r : LogRecord) (evs : list LogRecord) (l : L) :
  diagnostics handle (r :: evs) l
  = diagnostics handle [r] l ++ diagnostics handle evs (state_of (handle (name r) r l)).
Proof.
  cbn. destruct (handle (name r) r l); cbn; reflexivity.
Qed.

(** The loop walks through a run of records and carries on with what
    follows them. *)
Lemma listener_loop_records (evs : list LogRecord) :
  raises_only_Exception handle ->
  forall (rest : list get_result) (st : state L),
    listener_loop handle (got_records evs ++ rest) st
    = listener_loop handle rest
        (mkState (handle_each handle evs (logging st))
                 (stderr st ++ diagnostics handle evs (logging st))
                 (popped st ++ map PyLogRecord evs)
                 (handled st ++ evs)).
Proof.
  intros Hc. induction evs as [|r evs IH]; intros rest st.
  - cbn. rewrite !app_nil_r. destruct st; reflexivity.
  - cbn [got_records map app listener_loop].
    destruct (iteration_record_caught r st Hc) as (st' & Hit & Hl & Hp & Hh & He).
    rewrite Hit. fold (got_records evs). rewrite IH.
    rewrite Hl, Hp, Hh, He, handle_each_snoc_cons, (diagnostics_cons r evs).
    rewrite <- !app_assoc. reflexivity.
Qed.

(** The loop walks through a run of records that are all handled without
    a failure: nothing is printed. *)
Lemma listener_loop_handle_all (evs : list LogRecord) :
  forall (rest : list get_result) (st : state L) (l : L),
    handle_all handle evs (logging st) = Some l ->
    listener_loop handle (got_records evs ++ rest) st
    = listener_loop handle rest
        (mkState l (stderr st) (popped st ++ map PyLogRecord evs) (handled st ++ evs)).
Proof.
  induction evs as [|r evs IH]; intros rest st l H.
  - cbn in *. injection H as <-. rewrite !app_nil_r. destruct st; reflexivity.
  - cbn [got_records map app listener_loop]. cbn [handle_all] in H.
    unfold iteration, try_block. cbn [logging on_handle on_popped].
    destruct (handle (name r) r (logging st)) as [l'|e l'] eqn:Hh; [|discriminate].
    fold (got_records evs). rewrite (IH rest _ l) by exact H.
    cbn. rewrite <- !app_assoc. reflexivity.
Qed.

Lemma listener_loop_sentinel (rest : list get_result) (st : state L) :
  listener_loop handle (Got PyNone :: rest) st
  = mkRun Returned (on_popped PyNone st) rest.
Proof. reflexivity. Qed.

(** One iteration never reports [Blocked], and an exception leaves it only
    if [except Exception] does not catch it. *)
Lemma iteration_exit (g : get_result) (st st' : state L) (x : exit) :
  iteration handle g st = inr (x, st') ->
  (x = Returned /\ g = Got PyNone /\ st' = on_popped PyNone st)
  \/ (exists e, x = Propagated e /\ isinstance_Exception e = false).
Proof.
  unfold iteration, try_block. intros H.
  destruct g as [[|r|o]|e]; cbn in H.
  - injection H as <- <-. left. auto.
  - destruct (handle (name r) r (logging st)) as [l|e l]; [discriminate|].
    destruct (isinstance_Exception e) eqn:He; [discriminate|].
    injection H as <- <-. right. eauto.
  - discriminate.
  - destruct (isinstance_Exception e) eqn:He; [discriminate|].
    injection H as <- <-. right. eauto.
Qed.

Lemma iteration_popped (g : get_result) (st st' : state L) :
  iteration handle g st = inl st' ->
  popped st' = popped st ++ match g with Got item => [item] | GetRaised _ => [] end
  /\ match g with Got PyNone => False | _ => True end.
Proof.
  unfold iteration, try_block. intros H.
  destruct g as [[|r|o]|e]; cbn in H.
  - discriminate.
  - destruct (handle (name r) r (logging st)) as [l|e l].
    + injection H as <-. cbn. auto.
    + destruct (isinstance_Exception e); [|discriminate].
      injection H as <-. cbn. auto.
  - injection H as <-. cbn. auto.
  - destruct (isinstance_Exception e); [|discriminate].
    injection H as <-. cbn. rewrite app_nil_r. auto.
Qed.

(** How a run of the loop can end. *)
Lemma listener_loop_exit_cases (gets : list get_result) :
  forall st : state L,
    match how (listener_loop handle gets st) with
    | Returned =>
        exists before,
          popped (final (listener_loop handle gets st)) = popped st ++ before ++ [PyNone]
          /\ ~ In PyNone before
    | Propagated e => isinstance_Exception e = false
    | Blocked => ~ In (Got PyNone) gets
    end.
Proof.
  induction gets as [|g gets IH]; intros st.
  - cbn. auto.
  - cbn [listener_loop].
    destruct (iteration handle g st) as [st'|[x st']] eqn:Hit.
    + destruct (iteration_popped g st Hit) as [Hp Hg].
      specialize (IH st').
      destruct (how (listener_loop handle gets st')).
      * destruct IH as (before & Hb & Hn).
        exists (match g with Got item => [item] | GetRaised _ => [] end ++ before).
        rewrite Hb, Hp, <- !app_assoc. split; [reflexivity|].
        intros Hin. apply in_app_or in Hin as [Hin|Hin]; [|tauto].
        destruct g as [[|r|o]|e]; cbn in Hin; try tauto;
          destruct Hin as [Hin|[]]; discriminate.
      * exact IH.
      * intros [Heq|Hin]; [|tauto]. subst g. exact Hg.
    + cbn. destruct (iteration_exit g st Hit) as [(-> & -> & ->)|(e & -> & He)].
      * exists []. cbn. split; [reflexivity|tauto].
      * exact He.
Qed.

End ListenerFacts.

(** The library handler as modelled fails with an [OSError] only. *)
Lemma Logger_handle_raises_only_Exception : raises_only_Exception Logger_handle.
Proof.
  intros n r l e l'. unfold Logger_handle, RotatingSink.try_write.
  destruct (root_handler l) as [fh|]; [|discriminate].
  destruct (hd false (fs_denies l)); [|discriminate].
  intros H. injection H as <- _. reflexivity.
Qed.

(** C1. For every sequence of events in the queue followed by the sentinel
    [None], whatever comes after it: the listener loop hands every event to
    [logger.handle] exactly once and in the order popped, returns when it
    reads the sentinel, and reads nothing after it, so that no later item
    reaches the sink. The handler may fail on any event, as long as the
    failure is an instance of [Exception]. *)
Theorem listener_handles_every_event_once_then_stops
        (L : Type) (handle : string -> LogRecord -> L -> outcome L)
        (evs : list LogRecord) (after_sentinel : list Listener.get_result)
        (st : Listener.state L) :
  raises_only_Exception handle ->
  Listener.listener_loop handle
    (got_records evs ++ Listener.Got PyNone :: after_sentinel) st
  = Listener.mkRun Listener.Returned
      (Listener.mkState
         (handle_each handle evs (Listener.logging st))
         (Listener.stderr st ++ diagnostics handle evs (Listener.logging st))
         (Listener.popped st ++ map PyLogRecord evs ++ [PyNone])
         (Listener.handled st ++ evs))
      after_sentinel.
Proof.
  intros Hc. rewrite listener_loop_records by exact Hc.
  rewrite listener_loop_sentinel. unfold Listener.on_popped. cbn.
  rewrite <- app_assoc. reflexivity.
Qed.

Lemma listener_handles_every_event_once_then_stops_witness :
  Listener.listener_loop Logger_handle
    (got_records (Sample.records 1 3)
       ++ Listener.Got PyNone :: got_records (Sample.records 2 1))
    (Sample.start (Sample.configured []))
  = Listener.mkRun Listener.Returned
      (Listener.mkState
         (handle_each Logger_handle (Sample.records 1 3) (Sample.configured []))
         ([] ++ diagnostics Logger_handle (Sample.records 1 3) (Sample.configured []))
         ([] ++ map PyLogRecord (Sample.records 1 3) ++ [PyNone])
         ([] ++ Sample.records 1 3))
      (got_records (Sample.records 2 1)).
Proof.
  exact (@listener_handles_every_event_once_then_stops
           Logging Logger_handle (Sample.records 1 3) (got_records (Sample.records 2 1))
           (Sample.start (Sample.configured []))
           Logger_handle_raises_only_Exception).
Defined.

(** C3. A failure raised while one event is handled is caught, reported to
    [sys.stderr] and the loop goes on with the next item. When the handling
    of one event out of n fails (with an instance of [Exception]) and that of
    the others succeeds, the other n-1 events are written (the logging state
    at the end is the one their writes produce), exactly one diagnostic
    record is printed, to [sys.stderr] and not to the sink, and the loop
    returns on the sentinel. *)
Theorem one_failing_event_is_reported_and_the_others_written
        (L : Type) (handle : string -> LogRecord -> L -> outcome L)
        (evs1 : list LogRecord) (bad : LogRecord) (evs2 : list LogRecord)
        (after_sentinel : list Listener.get_result) (st : Listener.state L)
        (e : BaseException) (l1 l2 l3 : L) :
  handle_all handle evs1 (Listener.logging st) = Some l1 ->
  handle (name bad) bad l1 = Raise e l2 ->
  isinstance_Exception e = true ->
  handle_all handle evs2 l2 = Some l3 ->
  Listener.listener_loop handle
    (got_records evs1 ++ Listener.Got (PyLogRecord bad)
       :: got_records evs2 ++ Listener.Got PyNone :: after_sentinel) st
  = Listener.mkRun Listener.Returned
      (Listener.mkState
         l3
         (Listener.stderr st ++ [Print "Whoops! Problem:"; PrintExc e])
         (Listener.popped st ++ map PyLogRecord (evs1 ++ bad :: evs2) ++ [PyNone])
         (Listener.handled st ++ evs1 ++ bad :: evs2))
      after_sentinel.
Proof.
  intros H1 Hbad He H2.
  rewrite (listener_loop_handle_all handle evs1 _ st H1).
  cbn [Listener.listener_loop]. unfold Listener.iteration, Listener.try_block.
  cbn [Listener.logging Listener.on_handle Listener.on_popped Listener.popped
       Listener.handled Listener.stderr].
  rewrite Hbad, He.
  rewrite (listener_loop_handle_all handle evs2 _ _ (l := l3)) by exact H2.
  rewrite listener_loop_sentinel. unfold Listener.on_popped, Listener.report. cbn.
  rewrite map_app. cbn [map]. rewrite <- !app_assoc. reflexivity.
Qed.

Lemma one_failing_event_is_reported_and_the_others_written_witness :
  let denies := [false; false; false; false; false; false; true] in
  let st := Sample.start (Sample.configured denies) in
  let evs1 := Sample.records 1 6 in
  let bad := Sample.record 1 6 in
  let evs2 := map (Sample.record 1) (seq 7 3) in
  Listener.listener_loop Logger_handle
    (got_records evs1 ++ Listener.Got (PyLogRecord bad)
       :: got_records evs2 ++ Listener.Got PyNone :: []) st
  = Listener.mkRun Listener.Returned
      (Listener.mkState
         (handle_each Logger_handle (evs1 ++ evs2) (Sample.configured []))
         ([] ++ [Print "Whoops! Problem:";
                 PrintExc (Exception "OSError" "write access denied")])
         ([] ++ map PyLogRecord (evs1 ++ bad :: evs2) ++ [PyNone])
         ([] ++ evs1 ++ bad :: evs2))
      [].
Proof.
  intros denies st evs1 bad evs2.
  apply (@one_failing_event_is_reported_and_the_others_written
           Logging Logger_handle evs1 bad evs2 [] st
           (Exception "OSError" "write access denied")
           (handle_each Logger_handle evs1 (Sample.configured denies))
           (mkLogging (root_handler (handle_each Logger_handle evs1 (Sample.configured [])))
                      [])
           (handle_each Logger_handle (evs1 ++ evs2) (Sample.configured []))).
  - vm_compute. reflexivity.
  - vm_compute. reflexivity.
  - reflexivity.
  - vm_compute. reflexivity.
Defined.

(** C9, as the code has it. The [try] encloses [queue.get()] and the read of
    [record.name]: an exception raised there is handled like one raised by
    the dispatch. The clause is [except Exception], so an instance of
    [Exception] is reported and the loop goes on, and any other exception
    ([KeyboardInterrupt], [SystemExit], [GeneratorExit]) leaves the loop. A run
    that returns has read the sentinel last; a run left by an exception was
    left by one that is no instance of [Exception]; a run that does neither
    waits in [queue.get()] and has met no sentinel. *)
Theorem listener_loop_exit_paths
        (L : Type) (handle : string -> LogRecord -> L -> outcome L)
        (gets : list Listener.get_result) (st : Listener.state L) :
  (forall e,
      Listener.listener_loop handle (Listener.GetRaised e :: gets) st
      = if isinstance_Exception e
        then Listener.listener_loop handle gets (Listener.report e st)
        else Listener.mkRun (Listener.Propagated e) st gets)
  /\ (forall o,
        Listener.listener_loop handle (Listener.Got (PyOther o) :: gets) st
        = Listener.listener_loop handle gets
            (Listener.report AttributeError_name (Listener.on_popped (PyOther o) st)))
  /\ match Listener.how (Listener.listener_loop handle gets st) with
     | Listener.Returned =>
         exists before,
           Listener.popped (Listener.final (Listener.listener_loop handle gets st))
           = Listener.popped st ++ before ++ [PyNone]
           /\ ~ In PyNone before
     | Listener.Propagated e => isinstance_Exception e = false
     | Listener.Blocked => ~ In (Listener.Got PyNone) gets
     end.
Proof.
  split; [|split].
  - intros e. cbn [Listener.listener_loop]. unfold Listener.iteration. cbn.
    destruct (isinstance_Exception e); reflexivity.
  - intros o. reflexivity.
  - apply listener_loop_exit_cases.
Qed.

(** C9 as stated fails: [KeyboardInterrupt] raised by [queue.get()] is not
    caught by [except Exception]; it leaves the loop with the sentinel still
    unread. *)
Lemma keyboard_interrupt_leaves_the_loop :
  Listener.listener_loop Logger_handle
    [Listener.GetRaised KeyboardInterrupt; Listener.Got PyNone]
    (Sample.start (Sample.configured []))
  = Listener.mkRun (Listener.Propagated KeyboardInterrupt)
      (Sample.start (Sample.configured [])) [Listener.Got PyNone]
  /\ ~ no_exception_exit Logger_handle.
Proof.
  split; [reflexivity|].
  intros H.
  exact (H [Listener.GetRaised KeyboardInterrupt; Listener.Got PyNone]
           (Sample.start (Sample.configured []))).
Qed.

(** A worker whose root logger is left at its default level pushes
    nothing for a [DEBUG] message: the level set by [worker_configurer] is
    what lets the records through. *)
Lemma unconfigured_worker_pushes_nothing (env : Worker.Env) (i : nat) :
  Worker.worker_step Worker.unconfigured env i = [].
Proof. reflexivity. Qed.

Lemma worker_step_one_record (env : Worker.Env) (i : nat) :
  Worker.worker_step (Worker.worker_configurer Worker.unconfigured) env i
  = [mkLogRecord (nth (Worker.choice env i mod 3) LOGGERS EmptyString) LEVEL "DEBUG"
       (Worker.pid env) (Worker.clock env i)
       ("Child proces " ++ Worker.dquote ++ Worker.proc_name env ++ Worker.dquote
          ++ " step " ++ show_nat i ++ ": slept for " ++ Worker.random env i ++ "[s] ")%string].
Proof. reflexivity. Qed.

(** ** The rotating sink: facts *)

Section SinkFacts.

Import RotatingSink.

Lemma write_text_cases (text : string) (s : t) :
  write_text text s = if crosses text s then rotate (append text s) else append text s.
Proof. reflexivity. Qed.

Lemma max_backups_write_text (text : string) (s : t) :
  max_backups (write_text text s) = max_backups s.
Proof.
  rewrite write_text_cases. destruct (crosses text s); unfold rotate; cbn;
    try destruct (max_backups s =? 0)%nat; reflexivity.
Qed.

Lemma max_backups_write_texts (texts : list string) :
  forall s, max_backups (write_texts texts s) = max_backups s.
Proof.
  induction texts as [|text texts IH]; intros s; cbn; [reflexivity|].
  unfold write_texts in IH. rewrite IH. apply max_backups_write_text.
Qed.

Lemma write_texts_cons (text : string) (texts : list string) (s : t) :
  write_texts (text :: texts) s = write_texts texts (write_text text s).
Proof. reflexivity. Qed.

Lemma write_texts_app (texts1 texts2 : list string) (s : t) :
  write_texts (texts1 ++ texts2) s = write_texts texts2 (write_texts texts1 s).
Proof. unfold write_texts. apply fold_left_app. Qed.

Lemma rotations_app (texts1 texts2 : list string) :
  forall s,
    rotations (texts1 ++ texts2) s
    = rotations texts1 s + rotations texts2 (write_texts texts1 s).
Proof.
  induction texts1 as [|text texts1 IH]; intros s; cbn [app rotations]; [reflexivity|].
  rewrite IH, write_texts_cons. lia.
Qed.

(** Writes that trigger no rotation pile up in the active file and leave
    the backups alone. *)
Lemma write_texts_without_rotation (texts : list string) :
  forall s,
    rotations texts s = 0 ->
    active (write_texts texts s) = active s ++ texts
    /\ backups (write_texts texts s) = backups s.
Proof.
  induction texts as [|text texts IH]; intros s H.
  - cbn. rewrite app_nil_r. auto.
  - cbn [rotations] in H. rewrite write_texts_cons.
    destruct (crosses text s) eqn:Hc; [lia|].
    destruct (IH (write_text text s)) as [Ha Hb]; [lia|].
    rewrite Ha, Hb, write_text_cases, Hc. cbn. rewrite <- app_assoc. auto.
Qed.

(** The byte counter is the size of the active file. *)
Lemma size_write_text (text : string) (s : t) :
  size s = bytes (active s) ->
  size (write_text text s) = bytes (active (write_text text s)).
Proof.
  intros H. rewrite write_text_cases.
  destruct (crosses text s).
  - unfold rotate. destruct (max_backups (append text s) =? 0)%nat; reflexivity.
  - cbn. rewrite H. unfold bytes. rewrite fold_right_app. cbn.
    generalize (active s) as f. induction f as [|x f IH]; cbn; lia.
Qed.

Lemma firstn_app_firstn {A : Type} (n : nat) (a b : list A) :
  firstn n (a ++ firstn n b) = firstn n (a ++ b).
Proof.
  rewrite !firstn_app, firstn_firstn.
  replace (Nat.min (n - List.length a) n) with (n - List.length a) by lia.
  reflexivity.
Qed.

Lemma active_rotate (s : t) : active (rotate s) = [].
Proof. unfold rotate. destruct (max_backups s =? 0)%nat; reflexivity. Qed.

Lemma backups_rotate (s : t) :
  List.length (backups s) <= max_backups s ->
  backups (rotate s) = firstn (max_backups s) (active s :: backups s).
Proof.
  intros H. unfold rotate. destruct (max_backups s) as [|k] eqn:E; [|reflexivity].
  cbn. destruct (backups s); [reflexivity|cbn in H; lia].
Qed.

(** What the backups hold after a run of writes: the files rotated out,
    the newest first, in front of the old backups, cut at max-backups.
    Every line of a new file or of the active file was in the active
    file before or has been written since. *)
Lemma backups_after_writes (texts : list string) :
  forall s,
    List.length (backups s) <= max_backups s ->
    exists news,
      backups (write_texts texts s) = firstn (max_backups s) (news ++ backups s)
      /\ List.length news = rotations texts s
      /\ (forall line, In line (List.concat news) -> In line (active s ++ texts))
      /\ (forall line, In line (active (write_texts texts s)) -> In line (active s ++ texts)).
Proof.
  induction texts as [|text texts IH]; intros s Hlen.
  - exists []. cbn. rewrite firstn_all2 by exact Hlen. rewrite app_nil_r. tauto.
  - rewrite write_texts_cons. cbn [rotations].
    assert (Hlen1 : List.length (backups (write_text text s)) <= max_backups (write_text text s)).
    { rewrite max_backups_write_text, write_text_cases.
      destruct (crosses text s); [|exact Hlen].
      rewrite backups_rotate by exact Hlen. cbn [max_backups append].
      rewrite length_firstn. lia. }
    destruct (IH _ Hlen1) as (news & Hb & Hn & Hin & Hact).
    rewrite max_backups_write_text in Hb.
    rewrite write_text_cases in Hb, Hn, Hin, Hact |- *.
    destruct (crosses text s) eqn:Hc.
    + exists (news ++ [active s ++ [text]]).
      rewrite active_rotate in Hin, Hact.
      rewrite backups_rotate in Hb by exact Hlen. cbn [max_backups append active backups] in Hb.
      rewrite firstn_app_firstn in Hb.
      rewrite Hb, <- app_assoc, length_app, Hn. cbn [List.length app].
      split; [reflexivity|]. split; [lia|]. split.
      * intros line Hl. rewrite concat_app in Hl. cbn in Hl. rewrite app_nil_r in Hl.
        apply in_app_or in Hl as [Hl|Hl].
        -- apply Hin in Hl. cbn in Hl. apply in_or_app. right. right. exact Hl.
        -- apply in_app_or in Hl as [Hl|Hl]; apply in_or_app; [left; exact Hl|].
           right. destruct Hl as [<-|[]]. left. reflexivity.
      * intros line Hl. apply Hact in Hl. cbn in Hl. apply in_or_app. right. right. exact Hl.
    + exists news. cbn [append active backups] in Hb, Hin, Hact.
      rewrite Hb, Hn. split; [reflexivity|]. split; [reflexivity|].
      assert (Hsub : forall line, In line ((active s ++ [text]) ++ texts) ->
                                  In line (active s ++ text :: texts)).
      { intros line Hl. rewrite <- app_assoc in Hl. exact Hl. }
      split; intros line Hl; apply Hsub; auto.
Qed.

(** One rotation: the active file becomes backup 1, every backup moves up
    by one index, and nothing stays beyond max-backups. *)
Lemma rotate_shifts (s : t) (k : nat) :
  0 < max_backups s ->
  nth_error (backups (rotate s)) 0 = Some (active s)
  /\ (S k < max_backups s ->
      nth_error (backups (rotate s)) (S k) = nth_error (backups s) k)
  /\ List.length (backups (rotate s)) <= max_backups s.
Proof.
  intros HK. unfold rotate. destruct (max_backups s) as [|K] eqn:E; [lia|].
  cbn [Nat.eqb backups]. split; [reflexivity|]. split.
  - intros Hk. cbn [firstn nth_error]. rewrite nth_error_firstn.
    destruct (k <? K)%nat eqn:Hlt; [reflexivity|].
    apply Nat.ltb_ge in Hlt. lia.
  - rewrite length_firstn. lia.
Qed.

Lemma distinct_NoDup (lines : list string) : distinct lines = true -> NoDup lines.
Proof.
  induction lines as [|line rest IH]; intros H; [constructor|].
  cbn in H. apply andb_prop in H as [H1 H2]. constructor; [|auto].
  intros Hin. apply negb_true_iff in H1.
  assert (existsb (String.eqb line) rest = true); [|congruence].
  apply existsb_exists. exists line. split; [exact Hin|apply String.eqb_refl].
Qed.

Lemma bytes_app (f g : file) : bytes (f ++ g) = bytes f + bytes g.
Proof.
  unfold bytes. induction f as [|x f IH]; cbn; [reflexivity|]. rewrite IH. lia.
Qed.

(** The counter the sink compares with max-bytes is the number of bytes of
    the active file, from the opening on. *)
Lemma size_write_texts (texts : list string) :
  forall s, size s = bytes (active s) ->
            size (write_texts texts s) = bytes (active (write_texts texts s)).
Proof.
  induction texts as [|text texts IH]; intros s H; [exact H|].
  rewrite write_texts_cons. apply IH. apply size_write_text. exact H.
Qed.

Lemma crosses_iff_bytes (text : string) (s : t) :
  size s = bytes (active s) ->
  crosses text s = true <-> max_bytes s < bytes (active s ++ [text]).
Proof.
  intros H. unfold crosses. rewrite H, bytes_app. cbn [bytes fold_right].
  rewrite Nat.add_0_r. apply Nat.ltb_lt.
Qed.

(** The run of [rotating_logging.py] on the sink as modelled: a hundred
    lines of 72 bytes against a threshold of 300 rotate the file every five
    lines, and the ten newest backups are kept. *)
Example rotating_logging_run :
  let clock := fun _ : nat => "2020-05-17 10:00:00,000" in
  let lines := map (fun i => serialize RotatingLogging.rh (RotatingLogging.record clock 1 i))
                   (seq 0 100) in
  rotations lines RotatingLogging.rh = 20
  /\ List.length (files (RotatingLogging.main clock 1)) = 11.
Proof. vm_compute. split; reflexivity. Qed.

End SinkFacts.

(** C4. Rotation comes after the write, never in the middle of it. A write
    appends the whole line to the active file; if the byte count then exceeds
    max-bytes the sink rotates: backup 1 is the old active file with the
    crossing line as its last line, the new active file is empty, and as long
    as no further rotation occurs the active file holds exactly the lines
    written after the rotation, backup 1 staying as it is. A write that does
    not cross the threshold only adds its line to the active file. In both
    cases the line went, whole, into one file. (Max-backups is positive, as
    in the two handlers the source constructs.) *)
Theorem rotation_follows_the_crossing_write
        (s : RotatingSink.t) (event : LogRecord) (later : list string) :
  0 < RotatingSink.max_backups s ->
  if RotatingSink.crosses (RotatingSink.serialize s event) s
  then
    RotatingSink.active (RotatingSink.write event s) = []
    /\ hd_error (RotatingSink.backups (RotatingSink.write event s))
       = Some (RotatingSink.active s ++ [RotatingSink.serialize s event])
    /\ (RotatingSink.rotations later (RotatingSink.write event s) = 0 ->
        RotatingSink.active (RotatingSink.write_texts later (RotatingSink.write event s))
        = later
        /\ hd_error (RotatingSink.backups
                       (RotatingSink.write_texts later (RotatingSink.write event s)))
           = Some (RotatingSink.active s ++ [RotatingSink.serialize s event]))
  else
    RotatingSink.active (RotatingSink.write event s)
    = RotatingSink.active s ++ [RotatingSink.serialize s event]
    /\ RotatingSink.backups (RotatingSink.write event s) = RotatingSink.backups s.
Proof.
  intros HK. unfold RotatingSink.write. rewrite write_text_cases.
  destruct (RotatingSink.crosses (RotatingSink.serialize s event) s) eqn:Hc.
  - assert (Hrot : RotatingSink.rotate (RotatingSink.append (RotatingSink.serialize s event) s)
                   = RotatingSink.mk (RotatingSink.path s) (RotatingSink.formatter s) [] 0
                       (firstn (RotatingSink.max_backups s)
                               ((RotatingSink.active s ++ [RotatingSink.serialize s event])
                                  :: RotatingSink.backups s))
                       (RotatingSink.max_bytes s) (RotatingSink.max_backups s)).
    { unfold RotatingSink.rotate. cbn.
      destruct (RotatingSink.max_backups s) eqn:E; [lia|]. reflexivity. }
    rewrite Hrot. cbn [RotatingSink.active RotatingSink.backups].
    destruct (RotatingSink.max_backups s) as [|k] eqn:E; [lia|].
    cbn [firstn hd_error]. split; [reflexivity|]. split; [reflexivity|].
    intros Hlater.
    destruct (write_texts_without_rotation later _ Hlater) as [Ha Hb].
    rewrite Ha, Hb. cbn. auto.
  - cbn. auto.
Qed.

Lemma rotation_follows_the_crossing_write_witness :
  let clock := fun i : nat => "2020-05-17 10:00:00,000" in
  let s := RotatingSink.write_texts
             (map (fun i => RotatingSink.serialize RotatingLogging.rh
                              (RotatingLogging.record clock 1 i)) (seq 0 4))
             RotatingLogging.rh in
  let event := RotatingLogging.record clock 1 4 in
  let later := [RotatingSink.serialize s (RotatingLogging.record clock 1 5)] in
  RotatingSink.crosses (RotatingSink.serialize s event) s = true
  /\ RotatingSink.active (RotatingSink.write_texts later (RotatingSink.write event s)) = later
  /\ hd_error (RotatingSink.backups
                 (RotatingSink.write_texts later (RotatingSink.write event s)))
     = Some (RotatingSink.active s ++ [RotatingSink.serialize s event]).
Proof.
  intros clock s event later.
  assert (HK : 0 < RotatingSink.max_backups s) by (vm_compute; lia).
  assert (Hc : RotatingSink.crosses (RotatingSink.serialize s event) s = true)
    by (vm_compute; reflexivity).
  pose proof (rotation_follows_the_crossing_write s event later HK) as H.
  rewrite Hc in H. destruct H as (_ & _ & H).
  split; [exact Hc|]. apply H. vm_compute. reflexivity.
Defined.

(** C5. With max-backups K, a rotation makes the active file backup 1, moves
    the backup at index k to index k+1 as long as k+1 does not exceed K, and
    keeps nothing beyond K. Hence, starting with no backup: the first
    rotation leaves the active file, with the lines written so far, as the
    only backup; after K further rotations, K+1 in all, exactly K backups
    exist and no line of that oldest backup is present in any file any more
    (the lines being pairwise different). *)
Theorem oldest_backup_is_evicted_after_K_plus_1_rotations
        (s : RotatingSink.t) (pre : list string) (crossing : string)
        (more : list string) :
  RotatingSink.backups s = [] ->
  RotatingSink.rotations pre s = 0 ->
  RotatingSink.crosses crossing (RotatingSink.write_texts pre s) = true ->
  RotatingSink.rotations more (RotatingSink.write_texts (pre ++ [crossing]) s)
  = RotatingSink.max_backups s ->
  NoDup (RotatingSink.active s ++ pre ++ crossing :: more) ->
  RotatingSink.rotations (pre ++ crossing :: more) s = RotatingSink.max_backups s + 1
  /\ RotatingSink.backups (RotatingSink.write_texts (pre ++ [crossing]) s)
     = firstn (RotatingSink.max_backups s) [RotatingSink.active s ++ pre ++ [crossing]]
  /\ List.length
       (RotatingSink.backups (RotatingSink.write_texts (pre ++ crossing :: more) s))
     = RotatingSink.max_backups s
  /\ (forall line f,
        In line (RotatingSink.active s ++ pre ++ [crossing]) ->
        In f (RotatingSink.files (RotatingSink.write_texts (pre ++ crossing :: more) s)) ->
        ~ In line f)
  /\ (forall s' k,
        0 < RotatingSink.max_backups s' ->
        nth_error (RotatingSink.backups (RotatingSink.rotate s')) 0
        = Some (RotatingSink.active s')
        /\ (S k < RotatingSink.max_backups s' ->
            nth_error (RotatingSink.backups (RotatingSink.rotate s')) (S k)
            = nth_error (RotatingSink.backups s') k)
        /\ List.length (RotatingSink.backups (RotatingSink.rotate s'))
           <= RotatingSink.max_backups s').
Proof.
  intros Hb Hpre Hc Hmore Hnd.
  destruct (write_texts_without_rotation pre s Hpre) as [Hpa Hpb].
  rewrite Hb in Hpb.
  set (s1 := RotatingSink.write_texts (pre ++ [crossing]) s) in *.
  assert (Hs1 : s1 = RotatingSink.rotate
                       (RotatingSink.append crossing (RotatingSink.write_texts pre s))).
  { unfold s1. rewrite write_texts_app. cbn. rewrite write_text_cases, Hc. reflexivity. }
  assert (HK1 : RotatingSink.max_backups s1 = RotatingSink.max_backups s).
  { unfold s1. apply max_backups_write_texts. }
  assert (Hb1 : RotatingSink.backups s1
                = firstn (RotatingSink.max_backups s)
                         [RotatingSink.active s ++ pre ++ [crossing]]).
  { rewrite Hs1, backups_rotate; cbn; rewrite Hpb; cbn; [|lia].
    rewrite max_backups_write_texts, Hpa, <- app_assoc. reflexivity. }
  assert (Ha1 : RotatingSink.active s1 = []).
  { rewrite Hs1. apply active_rotate. }
  assert (Hfin : RotatingSink.write_texts (pre ++ crossing :: more) s
                 = RotatingSink.write_texts more s1).
  { unfold s1. rewrite <- write_texts_app, <- app_assoc. reflexivity. }
  assert (Hlen1 : List.length (RotatingSink.backups s1) <= RotatingSink.max_backups s1).
  { rewrite Hb1, HK1, length_firstn. cbn [List.length]. lia. }
  destruct (backups_after_writes more s1 Hlen1) as (news & Hbs & Hn & Hin & Hact).
  rewrite Ha1 in Hin, Hact. cbn in Hin, Hact.
  rewrite HK1 in Hbs. fold s1 in Hmore. rewrite Hmore in Hn.
  rewrite firstn_app, Hn, Nat.sub_diag, firstn_O, app_nil_r in Hbs.
  rewrite firstn_all2 in Hbs by lia.
  split; [|split; [exact Hb1|split; [|split]]].
  - replace (pre ++ crossing :: more) with ((pre ++ [crossing]) ++ more)
      by (rewrite <- app_assoc; reflexivity).
    rewrite rotations_app. fold s1. rewrite Hmore, rotations_app, Hpre.
    cbn [RotatingSink.rotations]. rewrite Hc. lia.
  - rewrite Hfin, Hbs. exact Hn.
  - intros line f Hline Hf Hlf. rewrite Hfin in Hf.
    assert (Hm : In line more).
    { destruct Hf as [<-|Hf]; [auto|].
      rewrite Hbs in Hf. apply Hin. apply in_concat. exists f. auto. }
    replace (RotatingSink.active s ++ pre ++ crossing :: more)
      with ((RotatingSink.active s ++ pre ++ [crossing]) ++ more) in Hnd
      by (rewrite <- !app_assoc; reflexivity).
    revert Hnd Hline Hm. generalize (RotatingSink.active s ++ pre ++ [crossing]) as l. clear.
    induction l as [|y l IH]; intros Hnd Hline Hm; [destruct Hline|].
    cbn in Hnd. inversion Hnd as [|? ? Hny Hnd']; subst.
    destruct Hline as [->|Hline].
    + apply Hny. apply in_or_app. right. exact Hm.
    + exact (IH Hnd' Hline Hm).
  - intros s' k HK. apply rotate_shifts. exact HK.
Qed.

Lemma oldest_backup_is_evicted_after_K_plus_1_rotations_witness :
  let line := fun i : nat =>
                RotatingSink.serialize RotatingLogging.rh
                  (RotatingLogging.record (fun _ => "2020-05-17 10:00:00,000") 1 i) in
  let pre := map line (seq 0 4) in
  let crossing := line 4 in
  let more := map line (seq 5 50) in
  RotatingSink.rotations (pre ++ crossing :: more) RotatingLogging.rh = 10 + 1
  /\ List.length
       (RotatingSink.backups
          (RotatingSink.write_texts (pre ++ crossing :: more) RotatingLogging.rh))
     = 10
  /\ (forall text f,
        In text (pre ++ [crossing]) ->
        In f (RotatingSink.files
                (RotatingSink.write_texts (pre ++ crossing :: more) RotatingLogging.rh)) ->
        ~ In text f).
Proof.
  intros line pre crossing more.
  destruct (@oldest_backup_is_evicted_after_K_plus_1_rotations
              RotatingLogging.rh pre crossing more) as (H1 & _ & H2 & H3 & _).
  - reflexivity.
  - vm_compute. reflexivity.
  - vm_compute. reflexivity.
  - vm_compute. reflexivity.
  - apply distinct_NoDup. vm_compute. reflexivity.
  - split; [exact H1|]. split; [exact H2|exact H3].
Defined.

(** ** The queue: facts *)

Section QueueFacts.

Import AggregatorQueue.

Lemma put_nowait_unbounded (item : pyobj) (q : t) :
  (maxsize q <= 0)%Z ->
  put_nowait item q = Some (mk (maxsize q) (items q ++ [item])).
Proof.
  intros H. unfold put_nowait, full.
  destruct (0 <? maxsize q)%Z eqn:E; [apply Z.ltb_lt in E; lia|reflexivity].
Qed.

Lemma get_waits_iff_empty (q : t) : get q = None <-> items q = [].
Proof.
  unfold get. destruct (items q); split; intros H; try reflexivity; discriminate.
Qed.

Lemma get_oldest (q : t) (item : pyobj) (rest : list pyobj) :
  items q = item :: rest -> get q = Some (item, mk (maxsize q) rest).
Proof. unfold get. intros ->. reflexivity. Qed.

(** On the unbounded queue no push fails, and what has been handed out
    followed by what the queue still holds is what it held followed by
    what has been pushed, in the order pushed. *)
Lemma run_unbounded (ops : list op) :
  forall q,
    (maxsize q <= 0)%Z ->
    exists out q',
      run ops q = Some (out, q')
      /\ maxsize q' = maxsize q
      /\ out ++ items q' = items q ++ map snd (pushed ops).
Proof.
  induction ops as [|[p item|] ops IH]; intros q Hq.
  - exists [], q. cbn. rewrite app_nil_r. auto.
  - cbn [run]. rewrite put_nowait_unbounded by exact Hq.
    destruct (IH (mk (maxsize q) (items q ++ [item])) Hq) as (out & q' & Hr & Hm & Ho).
    exists out, q'. cbn in Hm, Ho. rewrite Hr, Hm, Ho, <- app_assoc. auto.
  - cbn [run]. unfold get. destruct (items q) as [|item rest] eqn:E.
    + destruct (IH q Hq) as (out & q' & Hr & Hm & Ho).
      exists out, q'. rewrite Hr, Hm, Ho, E. auto.
    + destruct (IH (mk (maxsize q) rest) Hq) as (out & q' & Hr & Hm & Ho).
      exists (item :: out), q'. cbn in Hm, Ho. rewrite Hr, Hm. cbn. rewrite Ho. auto.
Qed.

Lemma combine_fst_snd {A B : Type} (l : list (A * B)) :
  combine (map fst l) (map snd l) = l.
Proof. induction l as [|[a b] l IH]; cbn; [|rewrite IH]; reflexivity. Qed.

End QueueFacts.

(** C6. The queue of the source, [Queue(-1)], is unbounded: in any run of
    pushes and pops no push fails or waits, whatever the queue already
    holds; a pop has no result, and its caller waits, exactly when the queue
    is empty, and otherwise hands out the oldest item; and the items come out
    in the order they went in, so that the items of any one producer are
    popped in the order that producer pushed them (across producers the order
    is the order of arrival). *)
Theorem queue_never_refuses_and_is_fifo (ops : list AggregatorQueue.op) :
  (forall q item,
      (AggregatorQueue.maxsize q <= 0)%Z ->
      AggregatorQueue.put_nowait item q
      = Some (AggregatorQueue.mk (AggregatorQueue.maxsize q)
                                 (AggregatorQueue.items q ++ [item])))
  /\ (forall q, AggregatorQueue.get q = None <-> AggregatorQueue.items q = [])
  /\ (forall q item rest,
        AggregatorQueue.items q = item :: rest ->
        AggregatorQueue.get q = Some (item, AggregatorQueue.mk (AggregatorQueue.maxsize q) rest))
  /\ exists out q,
      AggregatorQueue.run ops (AggregatorQueue.Queue (-1)) = Some (out, q)
      /\ out ++ AggregatorQueue.items q = map snd (AggregatorQueue.pushed ops)
      /\ forall p,
          AggregatorQueue.of_producer p
            (combine (map fst (AggregatorQueue.pushed ops)) (out ++ AggregatorQueue.items q))
          = AggregatorQueue.of_producer p (AggregatorQueue.pushed ops).
Proof.
  split; [intros q item; apply put_nowait_unbounded|].
  split; [exact get_waits_iff_empty|].
  split; [intros q item rest; apply get_oldest|].
  destruct (run_unbounded ops (AggregatorQueue.Queue (-1))) as (out & q & Hr & _ & Ho);
    [cbn; lia|].
  exists out, q. cbn in Ho. split; [exact Hr|]. split; [exact Ho|].
  intros p. rewrite Ho, combine_fst_snd. reflexivity.
Qed.

(** ** The orchestrator: facts *)

Section OrchestratorFacts.

Import Orchestrator.

Lemma for_range_starts (n : nat) :
  forall (workers : list proc) (s : st),
    for_range n
      (fun workers =>
         bind Process_worker (fun wrk =>
           let workers := workers ++ [wrk] in
           bind (start wrk) (fun _ => ret workers)))
      workers s
    = (workers ++ map WorkerProc (seq (spawned s) n),
       mkSt (spawned s + n) (trace s ++ map start_worker (seq (spawned s) n))).
Proof.
  induction n as [|n IH]; intros workers s.
  - cbn. rewrite !app_nil_r, Nat.add_0_r. destruct s; reflexivity.
  - cbn [for_range]. unfold bind at 1. unfold bind at 1.
    unfold Process_worker at 1. unfold bind at 1. unfold start at 1, emit at 1.
    unfold ret at 1. rewrite IH. cbn [spawned trace seq map].
    rewrite <- !app_assoc. cbn [app]. f_equal; [|f_equal; [lia|]].
    + rewrite Nat.add_1_r. reflexivity.
    + rewrite Nat.add_1_r. reflexivity.
Qed.

Lemma for_each_joins (workers : list proc) :
  forall s : st,
    for_each workers join s = (tt, mkSt (spawned s) (trace s ++ map Join workers)).
Proof.
  induction workers as [|w workers IH]; intros s.
  - cbn. rewrite app_nil_r. destruct s; reflexivity.
  - cbn [for_each]. unfold bind, join at 1, emit. rewrite IH. cbn.
    rewrite <- app_assoc. reflexivity.
Qed.

(** The actions of [main], in order. *)
Lemma actions_eq (n : nat) :
  actions n
  = [NewQueue (-1); Start ListenerProc]
      ++ map start_worker (seq 0 n)
      ++ map join_worker (seq 0 n)
      ++ [PutNowait PyNone; Join ListenerProc].
Proof.
  unfold actions, main_with.
  unfold bind at 1. unfold Queue, emit at 1.
  unfold bind at 1. unfold Process_listener, ret at 1.
  unfold bind at 1. unfold start at 1, emit at 1.
  unfold bind at 1. rewrite for_range_starts.
  unfold bind at 1. rewrite for_each_joins.
  unfold bind, put_nowait, join, emit. cbn.
  rewrite <- !app_assoc. cbn. rewrite map_map. reflexivity.
Qed.

Lemma length_actions (n : nat) : List.length (actions n) = 2 * n + 4.
Proof.
  rewrite actions_eq. rewrite !length_app, !length_map, !length_seq. cbn. lia.
Qed.

(** The action at each position of the run. *)
Lemma nth_error_actions (n pc : nat) :
  nth_error (actions n) pc =
  if (pc =? 0)%nat then Some (NewQueue (-1))
  else if (pc =? 1)%nat then Some (Start ListenerProc)
  else if (pc <? 2 + n)%nat then Some (start_worker (pc - 2))
  else if (pc <? 2 + 2 * n)%nat then Some (join_worker (pc - 2 - n))
  else if (pc =? 2 + 2 * n)%nat then Some (PutNowait PyNone)
  else if (pc =? 3 + 2 * n)%nat then Some (Join ListenerProc)
  else None.
Proof.
  rewrite actions_eq.
  destruct pc as [|[|k]]; [reflexivity|reflexivity|].
  change (S (S k) =? 0)%nat with false. change (S (S k) =? 1)%nat with false.
  cbn iota. cbn [app nth_error].
  destruct (S (S k) <? 2 + n)%nat eqn:E1.
  - apply Nat.ltb_lt in E1.
    rewrite nth_error_app1 by (rewrite length_map, length_seq; lia).
    rewrite nth_error_map, nth_error_seq.
    replace (k <? n)%nat with true by (symmetry; apply Nat.ltb_lt; lia).
    cbn. do 2 f_equal. lia.
  - apply Nat.ltb_ge in E1.
    rewrite nth_error_app2 by (rewrite length_map, length_seq; lia).
    rewrite length_map, length_seq.
    destruct (S (S k) <? 2 + 2 * n)%nat eqn:E2.
    + apply Nat.ltb_lt in E2.
      rewrite nth_error_app1 by (rewrite length_map, length_seq; lia).
      rewrite nth_error_map, nth_error_seq.
      replace (k - n <? n)%nat with true by (symmetry; apply Nat.ltb_lt; lia).
      cbn. do 2 f_equal. lia.
    + apply Nat.ltb_ge in E2.
      rewrite nth_error_app2 by (rewrite length_map, length_seq; lia).
      rewrite length_map, length_seq.
      destruct (S (S k) =? 2 + 2 * n)%nat eqn:E3.
      * apply Nat.eqb_eq in E3. replace (k - n - n) with 0 by lia. reflexivity.
      * apply Nat.eqb_neq in E3.
        destruct (S (S k) =? 3 + 2 * n)%nat eqn:E4.
        -- apply Nat.eqb_eq in E4. replace (k - n - n) with 1 by lia. reflexivity.
        -- apply Nat.eqb_neq in E4.
           destruct (k - n - n) as [|[|j]] eqn:E5; try lia.
           cbn. destruct j; reflexivity.
Qed.

End OrchestratorFacts.

(** ** The processes running together: facts *)

Section SystemFacts.

Import Listener Orchestrator System.

Variable L : Type.
Variable handle : string -> LogRecord -> L -> outcome L.
Variable configurer : L -> outcome L.
Variable l0 : L.
Variable nworkers nsteps : nat.
Variable envs : nat -> Worker.Env.

Local Abbreviation sys := (System.t L).
Local Abbreviation step := (System.step handle configurer l0 nworkers nsteps envs).
Local Abbreviation exec := (System.exec handle configurer l0 nworkers nsteps envs).
Local Abbreviation invariant := (System.invariant handle configurer l0 nworkers nsteps envs).
Local Abbreviation emitted := (System.emitted envs).
Local Abbreviation start_state := (System.start_state l0).

Lemma enqueue_unbounded (rs : list LogRecord) :
  forall q,
    (AggregatorQueue.maxsize q <= 0)%Z ->
    System.enqueue rs q
    = AggregatorQueue.mk (AggregatorQueue.maxsize q)
                         (AggregatorQueue.items q ++ map PyLogRecord rs).
Proof.
  induction rs as [|r rs IH]; intros q Hq.
  - cbn. rewrite app_nil_r. destruct q; reflexivity.
  - cbn [System.enqueue]. rewrite put_nowait_unbounded by exact Hq.
    rewrite IH by exact Hq. cbn. rewrite <- app_assoc. reflexivity.
Qed.

Lemma iteration_got_popped (item : pyobj) (st : state L) :
  match iteration handle (Got item) st with
  | inl st' | inr (_, st') => popped st' = popped st ++ [item]
  end.
Proof.
  unfold iteration, try_block. destruct item as [|r|o]; cbn; try reflexivity.
  destruct (handle (name r) r (logging st)) as [l|e l]; cbn; [reflexivity|].
  destruct (isinstance_Exception e); reflexivity.
Qed.

Lemma iteration_not_blocked (g : get_result) (st st' : state L) (x : exit) :
  iteration handle g st = inr (x, st') -> x <> Blocked.
Proof.
  intros H. destruct (iteration_exit handle g st H) as [(-> & _)|(e & -> & _)];
    discriminate.
Qed.

Lemma steps_of_app (i : nat) (o1 o2 : list (nat * nat)) :
  steps_of i (o1 ++ o2) = steps_of i o1 ++ steps_of i o2.
Proof. unfold steps_of. rewrite filter_app, map_app. reflexivity. Qed.

Lemma emitted_app (o1 o2 : list (nat * nat)) :
  emitted (o1 ++ o2) = emitted o1 ++ emitted o2.
Proof. unfold System.emitted. apply flat_map_app. Qed.

Lemma emitted_single (i k : nat) :
  emitted [(i, k)]
  = Worker.worker_step (Worker.worker_configurer Worker.unconfigured) (envs i) k.
Proof. unfold System.emitted. cbn [flat_map fst snd]. apply app_nil_r. Qed.

Local Opaque Worker.worker_step.

Lemma invariant_init : invariant (System.init L).
Proof.
  constructor; cbn.
  - lia.
  - reflexivity.
  - split; [lia|reflexivity].
  - intros H. lia.
  - intros i. lia.
  - exists []. split; [reflexivity|].
    unfold sentinel_pushed. cbn.
    destruct (nworkers + (nworkers + 0) + 2 <? 0)%nat eqn:E; [|reflexivity].
    apply Nat.ltb_lt in E. lia.
  - exact I.
Qed.

Lemma sentinel_pushed_iff (s : sys) :
  sentinel_pushed nworkers s = true <-> 2 * nworkers + 2 < pc s.
Proof. unfold sentinel_pushed. apply Nat.ltb_lt. Qed.

Lemma sentinel_pushed_same (s s' : sys) :
  (2 * nworkers + 2 < pc s <-> 2 * nworkers + 2 < pc s') ->
  sentinel_pushed nworkers s = sentinel_pushed nworkers s'.
Proof.
  intros H. unfold sentinel_pushed.
  destruct (2 * nworkers + 2 <? pc s)%nat eqn:E1, (2 * nworkers + 2 <? pc s')%nat eqn:E2;
    try reflexivity.
  - apply Nat.ltb_lt in E1. apply Nat.ltb_ge in E2. lia.
  - apply Nat.ltb_ge in E1. apply Nat.ltb_lt in E2. lia.
Qed.

Lemma invariant_step_main (s s' : sys) :
  invariant s -> System.step_main nworkers s = Some s' -> invariant s'.
Proof.
  intros [Hpc Hq Hls Hlj Hw (order & Hord & Hstream) Hl] Hstep.
  unfold System.step_main in Hstep. rewrite nth_error_actions in Hstep.
  destruct (pc s =? 0)%nat eqn:E0.
  { (* the queue is created *)
    apply Nat.eqb_eq in E0. injection Hstep as <-.
    constructor; cbn [pc queue listener workers].
    - lia.
    - split; [lia|reflexivity].
    - rewrite Hls. lia.
    - intros H. lia.
    - intros i. specialize (Hw i). destruct (workers s i); lia.
    - exists order. split; [exact Hord|].
      unfold queued in *. cbn [queue AggregatorQueue.Queue AggregatorQueue.items].
      rewrite E0 in Hq. destruct (queue s); [lia|].
      rewrite (sentinel_pushed_same _ s) by (cbn; lia). exact Hstream.
    - exact Hl. }
  destruct (pc s =? 1)%nat eqn:E1.
  { (* the listener is started *)
    apply Nat.eqb_eq in E1.
    destruct (listener s) eqn:El; try discriminate. injection Hstep as <-.
    constructor; cbn [pc queue listener workers].
    - lia.
    - destruct (queue s); [|lia]. destruct Hq. split; [lia|assumption].
    - split; [discriminate|lia].
    - intros H. lia.
    - intros i. specialize (Hw i). destruct (workers s i); lia.
    - exists order. split; [exact Hord|].
      unfold queued in *. cbn [queue consumed] in *.
      rewrite (sentinel_pushed_same _ s) by (cbn; lia). exact Hstream.
    - exact I. }
  apply Nat.eqb_neq in E0, E1.
  assert (Hnot : listener s <> LNotStarted L) by (rewrite Hls; lia).
  destruct (pc s <? 2 + nworkers)%nat eqn:E2.
  { (* a worker is started *)
    apply Nat.ltb_lt in E2. unfold start_worker in Hstep.
    destruct (workers s (pc s - 2)) eqn:Ew; try discriminate. injection Hstep as <-.
    constructor; cbn [pc queue listener workers].
    - lia.
    - destruct (queue s); [|lia]. destruct Hq. split; [lia|assumption].
    - split; [intros H; contradiction|lia].
    - intros H. lia.
    - intros i. unfold set_worker. specialize (Hw i).
      destruct (i =? pc s - 2)%nat eqn:Ei.
      + apply Nat.eqb_eq in Ei. lia.
      + apply Nat.eqb_neq in Ei. destruct (workers s i); lia.
    - exists order. split.
      + intros i. unfold set_worker. rewrite Hord.
        destruct (i =? pc s - 2)%nat eqn:Ei; [|reflexivity].
        apply Nat.eqb_eq in Ei. subst i. rewrite Ew. reflexivity.
      + unfold queued in *. cbn [queue] in *.
        rewrite (sentinel_pushed_same _ s) by (cbn; lia). exact Hstream.
    - exact Hl. }
  apply Nat.ltb_ge in E2.
  destruct (pc s <? 2 + 2 * nworkers)%nat eqn:E3.
  { (* a worker is joined *)
    apply Nat.ltb_lt in E3. unfold join_worker in Hstep.
    destruct (workers s (pc s - 2 - nworkers)) eqn:Ew; try discriminate.
    injection Hstep as <-.
    constructor; cbn [pc queue listener workers].
    - lia.
    - destruct (queue s); [|lia]. destruct Hq. split; [lia|assumption].
    - split; [intros H; contradiction|lia].
    - intros H. lia.
    - intros i. specialize (Hw i).
      destruct (workers s i) eqn:Ewi; try lia.
      assert (i <> pc s - 2 - nworkers) by (intros ->; congruence). lia.
    - exists order. split; [exact Hord|].
      unfold queued in *. cbn [queue] in *.
      rewrite (sentinel_pushed_same _ s) by (cbn; lia). exact Hstream.
    - exact Hl. }
  apply Nat.ltb_ge in E3.
  destruct (pc s =? 2 + 2 * nworkers)%nat eqn:E4.
  { (* the sentinel is pushed *)
    apply Nat.eqb_eq in E4.
    destruct (queue s) as [q|] eqn:Eq; [|discriminate]. destruct Hq as [_ Hmax].
    rewrite put_nowait_unbounded in Hstep by lia. injection Hstep as <-.
    constructor; cbn [pc queue listener workers].
    - lia.
    - split; [lia|exact Hmax].
    - split; [intros H; contradiction|lia].
    - intros H. lia.
    - intros i. specialize (Hw i). destruct (workers s i); lia.
    - exists order. split; [exact Hord|].
      unfold queued in *. cbn [queue AggregatorQueue.items] in *. rewrite Eq in Hstream.
      rewrite app_assoc, Hstream.
      replace (sentinel_pushed nworkers s) with false
        by (symmetry; apply Nat.ltb_ge; lia).
      unfold sentinel_pushed. cbn [pc].
      replace (2 * nworkers + 2 <? S (pc s))%nat with true
        by (symmetry; apply Nat.ltb_lt; lia).
      rewrite app_nil_r. reflexivity.
    - exact Hl. }
  apply Nat.eqb_neq in E4.
  destruct (pc s =? 3 + 2 * nworkers)%nat eqn:E5; [|discriminate].
  (* the listener is joined *)
  apply Nat.eqb_eq in E5.
  destruct (listener s) as [| |st|x st] eqn:El; try discriminate. injection Hstep as <-.
  constructor; cbn [pc queue listener workers].
  - lia.
  - destruct (queue s); [|lia]. destruct Hq. split; [lia|assumption].
  - split; [intros H; congruence|lia].
  - intros _. eauto.
  - intros i. specialize (Hw i). destruct (workers s i); lia.
  - exists order. split; [exact Hord|].
    unfold queued in *. cbn [queue] in *.
    rewrite (sentinel_pushed_same _ s) by (cbn; lia). exact Hstream.
  - exact Hl.
Qed.

Lemma steps_of_snoc (i j k : nat) (order : list (nat * nat)) :
  steps_of j (order ++ [(i, k)])
  = steps_of j order ++ (if (i =? j)%nat then [k] else []).
Proof.
  rewrite steps_of_app. unfold steps_of at 2. cbn.
  destruct (i =? j)%nat; reflexivity.
Qed.

Lemma invariant_step_worker (i : nat) (s s' : sys) :
  invariant s -> System.step_worker nsteps envs i s = Some s' -> invariant s'.
Proof.
  intros [Hpc Hq Hls Hlj Hw (order & Hord & Hstream) Hl] Hstep.
  unfold System.step_worker in Hstep.
  destruct (workers s i) as [|k|] eqn:Ew; try discriminate.
  destruct (queue s) as [q|] eqn:Eq; [|discriminate].
  destruct Hq as [Hpos Hmax].
  pose proof (Hw i) as Hwi. rewrite Ew in Hwi. destruct Hwi as (Hi & Hstarted & Hk & Hnj).
  assert (Hsent : sentinel_pushed nworkers s = false) by (apply Nat.ltb_ge; lia).
  cbv zeta in Hstep.
  rewrite enqueue_unbounded in Hstep by lia.
  destruct (k <? nsteps)%nat eqn:Ek; injection Hstep as <-.
  - (* one more pass through the loop *)
    apply Nat.ltb_lt in Ek.
    constructor; cbn [pc queue listener workers AggregatorQueue.maxsize].
    + exact Hpc.
    + auto.
    + exact Hls.
    + exact Hlj.
    + intros j. unfold set_worker. specialize (Hw j).
      destruct (j =? i)%nat eqn:Ej; [|exact Hw].
      apply Nat.eqb_eq in Ej. subst j. lia.
    + exists (order ++ [(i, k)]). split.
      * intros j. rewrite steps_of_snoc, Hord. unfold set_worker.
        rewrite (Nat.eqb_sym j i).
        destruct (i =? j)%nat eqn:Ej; [|apply app_nil_r].
        apply Nat.eqb_eq in Ej. subst j. rewrite Ew. cbn [done_steps].
        rewrite seq_S. reflexivity.
      * unfold queued in *. cbn [queue AggregatorQueue.items] in *.
        rewrite Eq in Hstream. unfold sentinel_pushed in *. cbn [pc].
        rewrite Hsent in *. rewrite app_nil_r in *.
        rewrite app_assoc, Hstream, emitted_app, map_app, emitted_single.
        reflexivity.
    + exact Hl.
  - (* the loop is done: the process exits *)
    apply Nat.ltb_ge in Ek.
    constructor; cbn [pc queue listener workers].
    + exact Hpc.
    + auto.
    + exact Hls.
    + exact Hlj.
    + intros j. unfold set_worker. specialize (Hw j).
      destruct (j =? i)%nat eqn:Ej; [|exact Hw].
      apply Nat.eqb_eq in Ej. subst j. lia.
    + exists order. split.
      * intros j. rewrite Hord. unfold set_worker.
        destruct (j =? i)%nat eqn:Ej; [|reflexivity].
        apply Nat.eqb_eq in Ej. subst j. rewrite Ew. cbn [done_steps].
        f_equal. lia.
      * unfold queued in *. cbn [queue] in *. rewrite Eq in Hstream. exact Hstream.
    + exact Hl.
Qed.

Lemma invariant_step_listener (s s' : sys) :
  invariant s -> System.step_listener handle configurer l0 s = Some s' -> invariant s'.
Proof.
  intros [Hpc Hq Hls Hlj Hw (order & Hord & Hstream) Hl] Hstep.
  unfold System.step_listener in Hstep.
  destruct (listener s) as [| |st|x st] eqn:El; try discriminate.
  - (* the configurer runs *)
    assert (Hpc1 : ~ pc s <= 1) by (rewrite <- Hls; discriminate).
    assert (Hpc2 : pc s <> 2 * nworkers + 4).
    { intros H. destruct (Hlj H) as (x & st & Hx). discriminate. }
    cbn [logging System.start_state] in Hstep.
    destruct (configurer l0) as [lc|e l] eqn:Ec; injection Hstep as <-.
    + constructor; cbn [pc queue listener workers]; try assumption.
      * split; [discriminate|lia].
      * intros H. contradiction.
      * exists order. split; [exact Hord|]. exact Hstream.
      * exists lc. split; [exact Ec|]. intros rest. reflexivity.
    + constructor; cbn [pc queue listener workers]; try assumption.
      * split; [discriminate|lia].
      * intros H. contradiction.
      * exists order. split; [exact Hord|]. exact Hstream.
      * split; [discriminate|]. intros rest. unfold listener_process.
        cbn [logging System.start_state]. rewrite Ec. reflexivity.
  - (* one iteration of the loop *)
    assert (Hpc1 : ~ pc s <= 1) by (rewrite <- Hls; discriminate).
    assert (Hpc2 : pc s <> 2 * nworkers + 4).
    { intros H. destruct (Hlj H) as (x & st' & Hx). discriminate. }
    destruct (queue s) as [q|] eqn:Eq; [|discriminate].
    unfold AggregatorQueue.get in Hstep.
    destruct (AggregatorQueue.items q) as [|item rest_q] eqn:Ei; [discriminate|].
    destruct Hl as (lc & Hc & Hloop).
    pose proof (iteration_got_popped item st) as Hpop.
    unfold queued in Hstream. rewrite Eq, Ei in Hstream. cbn [consumed] in Hstream.
    destruct (iteration handle (Got item) st) as [st'|[x st']] eqn:Hit;
      injection Hstep as <-.
    + constructor; cbn [pc queue listener workers AggregatorQueue.maxsize]; try assumption.
      * split; [discriminate|lia].
      * intros H. contradiction.
      * exists order. split; [exact Hord|].
        unfold queued. cbn [queue consumed AggregatorQueue.items pc].
        rewrite Hpop, <- app_assoc. exact Hstream.
      * exists lc. split; [exact Hc|]. intros rest.
        rewrite Hpop, map_app, <- app_assoc, Hloop. cbn [map app listener_loop].
        rewrite Hit. reflexivity.
    + constructor; cbn [pc queue listener workers AggregatorQueue.maxsize]; try assumption.
      * split; [discriminate|lia].
      * intros H. contradiction.
      * exists order. split; [exact Hord|].
        unfold queued. cbn [queue consumed AggregatorQueue.items pc].
        rewrite Hpop, <- app_assoc. exact Hstream.
      * split; [exact (iteration_not_blocked _ _ Hit)|]. intros rest.
        unfold listener_process. cbn [logging System.start_state]. rewrite Hc.
        change (with_logging lc (mkState l0 [] [] [])) with (with_logging lc start_state).
        rewrite Hpop, map_app, <- app_assoc, Hloop. cbn [map app listener_loop].
        rewrite Hit. reflexivity.
Qed.

Lemma invariant_step (a : agent) (s s' : sys) :
  invariant s -> step a s = Some s' -> invariant s'.
Proof.
  destruct a as [|i|]; cbn [System.step].
  - apply invariant_step_main.
  - apply invariant_step_worker.
  - apply invariant_step_listener.
Qed.

Lemma invariant_exec (sched : list agent) :
  forall s s', invariant s -> exec sched s = Some s' -> invariant s'.
Proof.
  induction sched as [|a sched IH]; intros s s' Hinv Hex; cbn in Hex.
  - injection Hex as <-. exact Hinv.
  - destruct (step a s) as [s1|] eqn:Hs; [|discriminate].
    exact (IH _ _ (invariant_step a Hinv Hs) Hex).
Qed.

Lemma invariant_reachable (s : sys) :
  System.reachable handle configurer l0 nworkers nsteps envs s -> invariant s.
Proof.
  intros [sched Hex]. exact (invariant_exec sched invariant_init Hex).
Qed.

(** *** What a finished run has delivered *)

Lemma got_records_map (evs : list LogRecord) :
  map Got (map PyLogRecord evs) = got_records evs.
Proof. unfold got_records. apply map_map. Qed.

Lemma length_emitted (order : list (nat * nat)) :
  List.length (emitted order) = List.length order.
Proof.
  induction order as [|[i k] order IH]; [reflexivity|].
  change ((i, k) :: order) with ([(i, k)] ++ order).
  rewrite emitted_app, length_app, IH, emitted_single, worker_step_one_record.
  reflexivity.
Qed.

Lemma steps_of_without_same (n : nat) (order : list (nat * nat)) :
  steps_of n (filter (fun ik => negb (fst ik =? n)%nat) order) = [].
Proof.
  unfold steps_of. induction order as [|[i k] order IH]; [reflexivity|].
  cbn [filter fst]. destruct (i =? n)%nat eqn:E; cbn [negb]; [exact IH|].
  cbn [filter fst]. rewrite E. exact IH.
Qed.

Lemma steps_of_without_other (i n : nat) (order : list (nat * nat)) :
  i <> n ->
  steps_of i (filter (fun ik => negb (fst ik =? n)%nat) order) = steps_of i order.
Proof.
  intros Hne. unfold steps_of. induction order as [|[j k] order IH]; [reflexivity|].
  cbn [filter fst]. destruct (j =? n)%nat eqn:E; cbn [negb].
  - apply Nat.eqb_eq in E. subst j.
    replace (n =? i)%nat with false by (symmetry; apply Nat.eqb_neq; lia). exact IH.
  - cbn [filter fst]. destruct (j =? i)%nat; cbn [map]; rewrite IH; reflexivity.
Qed.

(** A run of loop steps in which each of [n] workers has [m] steps, and no
    one else any, has [n * m] steps. *)
Lemma length_order (m n : nat) :
  forall order : list (nat * nat),
    (forall i, i < n -> List.length (steps_of i order) = m) ->
    (forall i, n <= i -> steps_of i order = []) ->
    List.length order = n * m.
Proof.
  induction n as [|n IH]; intros order Hin Hout.
  - destruct order as [|[i k] order]; [reflexivity|].
    specialize (Hout i (Nat.le_0_l i)). unfold steps_of in Hout. cbn in Hout.
    rewrite Nat.eqb_refl in Hout. discriminate.
  - rewrite <- (filter_length (fun ik => (fst ik =? n)%nat) order).
    rewrite (IH (filter (fun ik => negb (fst ik =? n)%nat) order)).
    + specialize (Hin n (Nat.lt_succ_diag_r n)). unfold steps_of in Hin.
      rewrite length_map in Hin. rewrite Hin. lia.
    + intros i Hi. rewrite steps_of_without_other by lia. apply Hin. lia.
    + intros i Hi. destruct (Nat.eq_dec i n) as [->|Hne].
      * apply steps_of_without_same.
      * rewrite steps_of_without_other by exact Hne. apply Hout. lia.
Qed.

Lemma map_PyLogRecord_sentinel (a b : list LogRecord) (x y : list pyobj) :
  map PyLogRecord a ++ PyNone :: x = map PyLogRecord b ++ PyNone :: y ->
  a = b /\ x = y.
Proof.
  revert b. induction a as [|r a IH]; intros [|r' b] H; cbn in H.
  - injection H as <-. auto.
  - discriminate.
  - discriminate.
  - injection H as <- H. destruct (IH b H) as [<- <-]. auto.
Qed.

(** When [main] has returned, every worker has exited after all its loop
    steps, and the listener has exited. *)
Lemma main_done_workers_exited (s : sys) :
  invariant s -> main_done nworkers s ->
  (forall i, i < nworkers -> workers s i = WExited)
  /\ (forall i, nworkers <= i -> workers s i = WNotStarted)
  /\ sentinel_pushed nworkers s = true.
Proof.
  intros [Hpc Hq Hls Hlj Hw _ _] Hdone. unfold main_done in Hdone.
  rewrite length_actions in Hdone.
  split; [|split].
  - intros i Hi. specialize (Hw i). destruct (workers s i); [lia|lia|reflexivity].
  - intros i Hi. specialize (Hw i). destruct (workers s i); [reflexivity|lia|lia].
  - apply sentinel_pushed_iff. lia.
Qed.

(** When [main] has returned, the configurer having succeeded and the
    handler failing with instances of [Exception] only: the listener has
    returned, it has handled exactly the records the workers pushed, every
    worker's records in the order of its loop, and the queue is empty. *)
Lemma main_done_delivers (s : sys) (lc : L) :
  invariant s -> main_done nworkers s ->
  configurer l0 = Ret lc ->
  raises_only_Exception handle ->
  exists order,
    (forall i, i < nworkers -> steps_of i order = seq 0 nsteps)
    /\ (forall i, nworkers <= i -> steps_of i order = [])
    /\ listener s
       = LExited Returned
           (mkState (handle_each handle (emitted order) lc)
                    (diagnostics handle (emitted order) lc)
                    (map PyLogRecord (emitted order) ++ [PyNone])
                    (emitted order))
    /\ queued s = [].
Proof.
  intros Hinv Hdone Hc Hcaught.
  destruct (main_done_workers_exited Hinv Hdone) as (Hex & Hns & Hsent).
  destruct Hinv as [Hpc Hq Hls Hlj Hw (order & Hord & Hstream) Hl].
  unfold main_done in Hdone. rewrite length_actions in Hdone.
  destruct (Hlj Hdone) as (x & st & El). rewrite El in Hl, Hstream.
  destruct Hl as [Hnb Hrun]. cbn [consumed] in Hstream. rewrite Hsent in Hstream.
  exists order. split; [|split].
  { intros i Hi. rewrite Hord, (Hex i Hi). reflexivity. }
  { intros i Hi. rewrite Hord, (Hns i Hi). reflexivity. }
  assert (Hstart : forall evs rest,
             listener_process handle (got_records evs ++ rest) configurer start_state
             = listener_loop handle rest
                 (mkState (handle_each handle evs lc) (diagnostics handle evs lc)
                          (map PyLogRecord evs) evs)).
  { intros evs rest. unfold listener_process. cbn [logging System.start_state].
    rewrite Hc. rewrite listener_loop_records by exact Hcaught. reflexivity. }
  destruct (queued s) as [|z Q] eqn:EQ using rev_ind.
  - rewrite app_nil_r in Hstream. specialize (Hrun []).
    rewrite Hstream, map_app, got_records_map, <- app_assoc, Hstart in Hrun.
    cbn in Hrun. injection Hrun as <- <-. auto.
  - exfalso. clear IHQ. rewrite app_assoc in Hstream.
    apply app_inj_tail in Hstream as [Hstream _].
    symmetry in Hstream. apply map_eq_app in Hstream as (e1 & e2 & _ & Hp & _).
    specialize (Hrun []). rewrite <- Hp, got_records_map, Hstart in Hrun.
    cbn in Hrun. injection Hrun as Hx _. apply Hnb. symmetry. exact Hx.
Qed.

(** *** Progress and termination *)

Lemma sum_set_worker (f : wstatus -> nat) (i : nat) (w : wstatus)
      (ws : nat -> wstatus) (n a : nat) :
  a <= i < a + n ->
  list_sum (map (fun j => f (set_worker i w ws j)) (seq a n)) + f (ws i)
  = list_sum (map (fun j => f (ws j)) (seq a n)) + f w.
Proof.
  assert (Hcons : forall x l, list_sum (x :: l) = x + list_sum l) by reflexivity.
  revert a. induction n as [|n IH]; intros a Hi; [lia|].
  cbn [seq map]. rewrite !Hcons. unfold set_worker at 1.
  destruct (a =? i)%nat eqn:E.
  - apply Nat.eqb_eq in E. subst a.
    assert (Hrest : map (fun j => f (set_worker i w ws j)) (seq (S i) n)
                    = map (fun j => f (ws j)) (seq (S i) n)).
    { apply map_ext_in. intros j Hj. apply in_seq in Hj. unfold set_worker.
      replace (j =? i)%nat with false by (symmetry; apply Nat.eqb_neq; lia).
      reflexivity. }
    rewrite Hrest. lia.
  - apply Nat.eqb_neq in E. specialize (IH (S a)). lia.
Qed.

Lemma measure_step (a : agent) (s s' : sys) :
  invariant s -> step a s = Some s' ->
  measure nworkers nsteps s' < measure nworkers nsteps s.
Proof.
  intros Hinv Hstep. pose proof (inv_pc Hinv) as Hpc.
  pose proof (inv_queue Hinv) as Hq. pose proof (inv_workers Hinv) as Hw.
  destruct a as [|i|]; cbn [System.step] in Hstep.
  - (* main *)
    unfold System.step_main in Hstep.
    destruct (nth_error (actions nworkers) (pc s)) as [act|] eqn:Eact; [|discriminate].
    assert (Hlt : pc s < 2 * nworkers + 4).
    { rewrite <- length_actions. apply nth_error_Some. congruence. }
    destruct act as [maxsize|[|i]|[|i]|item].
    + injection Hstep as <-. unfold measure, queued. cbn [pc queue listener workers].
      destruct (queue s); cbn; lia.
    + destruct (listener s) eqn:El; try discriminate. injection Hstep as <-.
      unfold measure, queued. cbn [pc queue listener workers listener_measure].
      rewrite El. cbn [listener_measure]. lia.
    + destruct (workers s i) eqn:Ew; try discriminate. injection Hstep as <-.
      unfold measure, queued. cbn [pc queue listener workers].
      assert (Hsame : map (fun j => worker_measure nsteps
                                      (set_worker i (WRunning 0) (workers s) j))
                          (seq 0 nworkers)
                      = map (fun j => worker_measure nsteps (workers s j)) (seq 0 nworkers)).
      { apply map_ext. intros j. unfold set_worker.
        destruct (j =? i)%nat eqn:E; [|reflexivity].
        apply Nat.eqb_eq in E. subst j. rewrite Ew. cbn. f_equal. lia. }
      rewrite Hsame. lia.
    + destruct (listener s) eqn:El; try discriminate. injection Hstep as <-.
      unfold measure, queued. cbn [pc queue listener workers]. rewrite El. lia.
    + destruct (workers s i) eqn:Ew; try discriminate. injection Hstep as <-.
      unfold measure, queued. cbn [pc queue listener workers]. lia.
    + destruct (queue s) as [q|] eqn:Eq; [|discriminate].
      destruct Hq as [_ Hmax]. rewrite put_nowait_unbounded in Hstep by lia.
      injection Hstep as <-.
      unfold measure, queued. cbn [pc queue listener workers AggregatorQueue.items].
      rewrite Eq, length_app. cbn. lia.
  - (* a worker *)
    unfold System.step_worker in Hstep.
    destruct (workers s i) as [|k|] eqn:Ew; try discriminate.
    destruct (queue s) as [q|] eqn:Eq; [|discriminate]. destruct Hq as [_ Hmax].
    pose proof (Hw i) as Hwi. rewrite Ew in Hwi. destruct Hwi as (Hi & _ & Hk & _).
    cbv zeta in Hstep. rewrite enqueue_unbounded in Hstep by lia.
    destruct (k <? nsteps)%nat eqn:Ek; injection Hstep as <-.
    + apply Nat.ltb_lt in Ek.
      unfold measure, queued. cbn [pc queue listener workers AggregatorQueue.items].
      rewrite Eq, length_app, length_map, worker_step_one_record.
      pose proof (@sum_set_worker (worker_measure nsteps) i (WRunning (S k))
                                 (workers s) nworkers 0) as Hsum.
      specialize (Hsum ltac:(lia)).
      rewrite Ew in Hsum. cbn [worker_measure List.length] in Hsum |- *. lia.
    + apply Nat.ltb_ge in Ek.
      unfold measure, queued. cbn [pc queue listener workers]. rewrite Eq.
      pose proof (@sum_set_worker (worker_measure nsteps) i WExited
                                 (workers s) nworkers 0) as Hsum.
      specialize (Hsum ltac:(lia)).
      rewrite Ew in Hsum. cbn [worker_measure] in Hsum. lia.
  - (* the listener *)
    unfold System.step_listener in Hstep.
    destruct (listener s) as [| |st|x st] eqn:El; try discriminate.
    + destruct (configurer (logging start_state)); injection Hstep as <-;
        unfold measure, queued; cbn [pc queue listener workers]; rewrite El;
        cbn [listener_measure]; lia.
    + destruct (queue s) as [q|] eqn:Eq; [|discriminate].
      unfold AggregatorQueue.get in Hstep.
      destruct (AggregatorQueue.items q) as [|item rest] eqn:Ei; [discriminate|].
      destruct (iteration handle (Got item) st) as [st'|[x st']];
        injection Hstep as <-;
        unfold measure, queued;
        cbn [pc queue listener workers AggregatorQueue.items];
        rewrite El, Eq, Ei; cbn [List.length listener_measure]; lia.
Qed.

(** A listener in its loop has not read the sentinel. *)
Lemma running_listener_has_no_sentinel (s : sys) (st : state L) :
  invariant s -> listener s = LRunning st -> ~ In PyNone (popped st).
Proof.
  intros Hinv El Hin. pose proof (inv_listener Hinv) as Hl. rewrite El in Hl.
  destruct Hl as (lc & _ & Hloop). specialize (Hloop []). rewrite app_nil_r in Hloop.
  pose proof (listener_loop_exit_cases handle (map Got (popped st))
                                       (with_logging lc start_state)) as Hcases.
  rewrite Hloop in Hcases. cbn in Hcases. apply Hcases.
  apply in_map_iff. exists PyNone. auto.
Qed.

(** As long as [main] has not returned, some process can take a step. *)
Lemma progress (s : sys) :
  invariant s -> ~ main_done nworkers s -> exists a s', step a s = Some s'.
Proof.
  intros Hinv Hnd. unfold main_done in Hnd. rewrite length_actions in Hnd.
  pose proof (inv_pc Hinv) as Hpc. pose proof (inv_queue Hinv) as Hq.
  pose proof (inv_workers Hinv) as Hw. pose proof (inv_listener_started Hinv) as Hls.
  assert (Hqueue : 0 < pc s -> exists q, queue s = Some q
                                         /\ AggregatorQueue.maxsize q = (-1)%Z).
  { intros H. destruct (queue s) as [q|]; [|lia]. exists q. tauto. }
  assert (Hworker : forall i k, 0 < pc s -> workers s i = WRunning k ->
                                exists s', step (Worker i) s = Some s').
  { intros i k H Ew. destruct (Hqueue H) as (q & Eq & _).
    cbn [System.step]. unfold System.step_worker. rewrite Ew, Eq.
    destruct (k <? nsteps)%nat; eauto. }
  cbn [System.step].
  destruct (pc s =? 0)%nat eqn:E0.
  { exists Main. cbn [System.step]. unfold System.step_main.
    rewrite nth_error_actions, E0. eauto. }
  destruct (pc s =? 1)%nat eqn:E1.
  { exists Main. cbn [System.step]. unfold System.step_main.
    rewrite nth_error_actions, E0, E1.
    apply Nat.eqb_eq in E1.
    assert (Hn : listener s = LNotStarted L) by (apply Hls; lia).
    rewrite Hn. eauto. }
  destruct (pc s <? 2 + nworkers)%nat eqn:E2.
  { exists Main. cbn [System.step]. unfold System.step_main.
    rewrite nth_error_actions, E0, E1, E2. unfold start_worker.
    apply Nat.ltb_lt in E2. apply Nat.eqb_neq in E0, E1.
    specialize (Hw (pc s - 2)). destruct (workers s (pc s - 2)); eauto; lia. }
  destruct (pc s <? 2 + 2 * nworkers)%nat eqn:E3.
  { apply Nat.ltb_lt in E3. apply Nat.ltb_ge in E2. apply Nat.eqb_neq in E0, E1.
    pose proof (Hw (pc s - 2 - nworkers)) as Hwi.
    destruct (workers s (pc s - 2 - nworkers)) as [|k|] eqn:Ew.
    - exfalso. apply Hwi. lia.
    - destruct (Hworker _ k ltac:(lia) Ew) as [s' Hs']. eauto.
    - exists Main. cbn [System.step]. unfold System.step_main.
      rewrite nth_error_actions.
      replace (pc s =? 0)%nat with false by (symmetry; apply Nat.eqb_neq; lia).
      replace (pc s =? 1)%nat with false by (symmetry; apply Nat.eqb_neq; lia).
      replace (pc s <? 2 + nworkers)%nat with false by (symmetry; apply Nat.ltb_ge; lia).
      replace (pc s <? 2 + 2 * nworkers)%nat with true by (symmetry; apply Nat.ltb_lt; lia).
      unfold join_worker. rewrite Ew. eauto. }
  destruct (pc s =? 2 + 2 * nworkers)%nat eqn:E4.
  { exists Main. cbn [System.step]. unfold System.step_main.
    rewrite nth_error_actions, E0, E1, E2, E3, E4.
    apply Nat.eqb_neq in E0. destruct (Hqueue ltac:(lia)) as (q & Eq & Hmax).
    rewrite Eq, put_nowait_unbounded by lia. eauto. }
  apply Nat.ltb_ge in E2, E3. apply Nat.eqb_neq in E0, E1, E4.
  assert (E5 : pc s = 3 + 2 * nworkers) by lia.
  destruct (listener s) as [| |st|x st] eqn:El.
  - assert (pc s <= 1) by (apply Hls; reflexivity). lia.
  - exists ListenerAgent. cbn [System.step]. unfold System.step_listener. rewrite El.
    cbv zeta. destruct (configurer (logging start_state)); eauto.
  - exists ListenerAgent. cbn [System.step]. unfold System.step_listener. rewrite El.
    destruct (Hqueue ltac:(lia)) as (q & Eq & _). rewrite Eq.
    destruct (inv_stream Hinv) as (order & _ & Hstream).
    rewrite El in Hstream. unfold queued in Hstream. rewrite Eq in Hstream.
    cbn [consumed] in Hstream.
    replace (sentinel_pushed nworkers s) with true in Hstream
      by (symmetry; apply sentinel_pushed_iff; lia).
    unfold AggregatorQueue.get.
    destruct (AggregatorQueue.items q) as [|item rest] eqn:Ei.
    + exfalso. apply (running_listener_has_no_sentinel Hinv El).
      rewrite app_nil_r in Hstream. rewrite Hstream. apply in_or_app. right. left.
      reflexivity.
    + destruct (iteration handle (Got item) st) as [st'|[x st']]; eauto.
  - exists Main. cbn [System.step]. unfold System.step_main.
    rewrite nth_error_actions.
    replace (pc s =? 0)%nat with false by (symmetry; apply Nat.eqb_neq; lia).
    replace (pc s =? 1)%nat with false by (symmetry; apply Nat.eqb_neq; lia).
    replace (pc s <? 2 + nworkers)%nat with false by (symmetry; apply Nat.ltb_ge; lia).
    replace (pc s <? 2 + 2 * nworkers)%nat with false by (symmetry; apply Nat.ltb_ge; lia).
    replace (pc s =? 2 + 2 * nworkers)%nat with false by (symmetry; apply Nat.eqb_neq; lia).
    replace (pc s =? 3 + 2 * nworkers)%nat with true by (symmetry; apply Nat.eqb_eq; lia).
    rewrite El. eauto.
Qed.

Lemma main_done_dec (s : sys) : {main_done nworkers s} + {~ main_done nworkers s}.
Proof. unfold main_done. apply Nat.eq_dec. Qed.

(** Every step uses up some of the measure: a run from [s] has at most
    [measure s] steps. *)
Lemma exec_measure (sched : list agent) :
  forall s s',
    invariant s -> exec sched s = Some s' ->
    List.length sched + measure nworkers nsteps s' <= measure nworkers nsteps s.
Proof.
  induction sched as [|a sched IH]; intros s s' Hinv Hex; cbn in Hex.
  - injection Hex as <-. cbn. lia.
  - destruct (step a s) as [s1|] eqn:Hs; [|discriminate].
    pose proof (measure_step a Hinv Hs).
    specialize (IH s1 s' (invariant_step a Hinv Hs) Hex). cbn [List.length]. lia.
Qed.

(** The records of one worker among those pushed are the records of its
    loop steps, which for a worker that has finished is what
    [worker_process] pushes. *)
Lemma emitted_of_worker (i : nat) (order : list (nat * nat)) :
  emitted (filter (fun ik => (fst ik =? i)%nat) order)
  = flat_map (Worker.worker_step (Worker.worker_configurer Worker.unconfigured) (envs i))
             (steps_of i order).
Proof.
  unfold System.emitted, steps_of. induction order as [|[j k] order IH]; [reflexivity|].
  cbn [filter fst]. destruct (j =? i)%nat eqn:E; [|exact IH].
  apply Nat.eqb_eq in E. subst j. cbn [flat_map map fst snd]. rewrite IH. reflexivity.
Qed.

Lemma emitted_of_finished_worker (i : nat) (order : list (nat * nat)) :
  steps_of i order = seq 0 nsteps ->
  emitted (filter (fun ik => (fst ik =? i)%nat) order)
  = Worker.worker_process_with nsteps Worker.worker_configurer (envs i).
Proof. intros H. rewrite emitted_of_worker, H. reflexivity. Qed.

(** From every state that satisfies the invariant the run can be brought to
    the return of [main]. *)
Lemma completion (k : nat) :
  forall s,
    invariant s -> measure nworkers nsteps s <= k ->
    exists sched s', exec sched s = Some s' /\ main_done nworkers s'.
Proof.
  induction k as [|k IH]; intros s Hinv Hk.
  - destruct (main_done_dec s) as [Hd|Hnd]; [exists [], s; auto|].
    destruct (progress Hinv Hnd) as (a & s1 & Hs).
    pose proof (measure_step a Hinv Hs). lia.
  - destruct (main_done_dec s) as [Hd|Hnd]; [exists [], s; auto|].
    destruct (progress Hinv Hnd) as (a & s1 & Hs).
    pose proof (measure_step a Hinv Hs) as Hlt.
    destruct (IH s1 (invariant_step a Hinv Hs)) as (sched & s' & Hex & Hd); [lia|].
    exists (a :: sched), s'. split; [|exact Hd]. cbn. rewrite Hs. exact Hex.
Qed.

(** A listener that an exception has ended: either the configurer raised
    it, before the loop and before anything was read, or it is no instance
    of [Exception]. *)
Lemma propagated_cases (s : sys) (e : BaseException) (st : state L) :
  invariant s -> listener s = LExited (Propagated e) st ->
  (popped st = [] /\ exists l, configurer l0 = Raise e l /\ st = with_logging l start_state)
  \/ isinstance_Exception e = false.
Proof.
  intros Hinv El. pose proof (inv_listener Hinv) as Hl. rewrite El in Hl.
  destruct Hl as [_ Hrun]. specialize (Hrun []). rewrite app_nil_r in Hrun.
  unfold listener_process in Hrun. cbn [logging System.start_state] in Hrun.
  destruct (configurer l0) as [lc|e' l] eqn:Ec.
  - right.
    pose proof (listener_loop_exit_cases handle (map Got (popped st))
                                         (with_logging lc start_state)) as Hcases.
    change (with_logging lc (mkState l0 [] [] [])) with (with_logging lc start_state) in Hrun.
    rewrite Hrun in Hcases. exact Hcases.
  - left. injection Hrun as <- <- Hp.
    apply map_eq_nil in Hp. split; [exact Hp|]. exists l. auto.
Qed.

(** When the configurer fails, [main] and the workers run to their end all
    the same: at the return of [main] every worker has exited after all its
    loop steps, and the records and the sentinel are in the queue,
    unread. *)
Lemma startup_failure_leaves_the_queue_unread
      (s : sys) (e : BaseException) (l : L) :
  invariant s -> main_done nworkers s -> configurer l0 = Raise e l ->
  listener s = LExited (Propagated e) (with_logging l start_state)
  /\ (forall i, i < nworkers -> workers s i = WExited)
  /\ exists order,
      (forall i, i < nworkers -> steps_of i order = seq 0 nsteps)
      /\ queued s = map PyLogRecord (emitted order) ++ [PyNone].
Proof.
  intros Hinv Hdone Hc.
  destruct (main_done_workers_exited Hinv Hdone) as (Hex & Hns & Hsent).
  pose proof (inv_listener Hinv) as Hl.
  destruct (inv_stream Hinv) as (order & Hord & Hstream).
  unfold main_done in Hdone. rewrite length_actions in Hdone.
  destruct (inv_listener_joined Hinv Hdone) as (x & st & El).
  rewrite El in Hl, Hstream. destruct Hl as [_ Hrun]. specialize (Hrun []).
  rewrite app_nil_r in Hrun. unfold listener_process in Hrun.
  cbn [logging System.start_state] in Hrun. rewrite Hc in Hrun.
  injection Hrun as <- <- Hp. apply map_eq_nil in Hp.
  cbn [consumed popped with_logging] in Hstream.
  split; [exact El|]. split; [exact Hex|].
  exists order. split.
  - intros i Hi. rewrite Hord, (Hex i Hi). reflexivity.
  - rewrite Hsent in Hstream. cbn [popped with_logging] in Hp.
    exact Hstream.
Qed.

End SystemFacts.

(** ** The pipeline of the source: listener, rotating sink, workers *)

Section PipelineFacts.

Import Listener System.

Lemma formatter_write (r : LogRecord) (fh : RotatingSink.t) :
  RotatingSink.formatter (RotatingSink.write r fh) = RotatingSink.formatter fh.
Proof.
  unfold RotatingSink.write. rewrite write_text_cases.
  destruct (RotatingSink.crosses _ fh); [|reflexivity].
  unfold RotatingSink.rotate. cbn.
  destruct (RotatingSink.max_backups fh =? 0)%nat; reflexivity.
Qed.

(** With no write denied, handling records is writing their lines. *)
Lemma handle_each_writes (evs : list LogRecord) :
  forall fh,
    handle_each Logger_handle evs (mkLogging (Some fh) [])
    = mkLogging
        (Some (RotatingSink.write_texts (map (RotatingSink.serialize fh) evs) fh)) []
    /\ diagnostics Logger_handle evs (mkLogging (Some fh) []) = [].
Proof.
  induction evs as [|r evs IH]; intros fh; [split; reflexivity|].
  assert (Hstep : Logger_handle (name r) r (mkLogging (Some fh) [])
                  = Ret (mkLogging (Some (RotatingSink.write r fh)) []))
    by reflexivity.
  rewrite handle_each_snoc_cons. cbn [diagnostics]. rewrite Hstep. cbn [state_of].
  destruct (IH (RotatingSink.write r fh)) as [Hh Hd]. rewrite Hh, Hd.
  split; [|reflexivity]. cbn [map]. rewrite write_texts_cons. do 2 f_equal.
  unfold RotatingSink.write. f_equal.
  apply map_ext. intros r'. unfold RotatingSink.serialize.
  change (RotatingSink.write_text (RotatingSink.formatter fh r ++ RotatingSink.newline) fh)
    with (RotatingSink.write r fh).
  rewrite formatter_write. reflexivity.
Qed.

(** A finished run of [n] workers of [m] steps each, the log file opened
    and no write denied: the listener has returned after handling the [n *
    m] records of the workers, each worker's in the order of its loop,
    nothing was reported, the queue is empty, and, where no rotation
    occurred, the log file holds what it held before followed by one line
    per record. *)
Lemma finished_run_delivers
      (n m : nat) (envs : nat -> Worker.Env) (disk : Disk)
      (s : System.t Logging) :
  reachable Logger_handle (listener_configurer disk) (mkLogging None []) n m envs s ->
  main_done n s ->
  openable disk = true ->
  let fh0 := RotatingSink.open FILENAME (FMT show_Z) FILEROTATION_MAXBYTES
                               FILEROTATION_NBACKUPS (existing disk)
                               (existing_backups disk) in
  exists order fh,
    (forall i, i < n -> steps_of i order = seq 0 m)
    /\ List.length (emitted envs order) = n * m
    /\ listener s
       = LExited Returned
           (mkState (mkLogging (Some fh) []) []
                    (map PyLogRecord (emitted envs order) ++ [PyNone])
                    (emitted envs order))
    /\ queued s = []
    /\ (RotatingSink.rotations
          (map (RotatingSink.serialize fh0) (emitted envs order)) fh0 = 0 ->
        RotatingSink.active fh
        = existing disk ++ map (RotatingSink.serialize fh0) (emitted envs order)).
Proof.
  intros Hreach Hdone Hopen fh0.
  pose proof (invariant_reachable Hreach) as Hinv.
  assert (Hc : listener_configurer disk (mkLogging None []) = Ret (mkLogging (Some fh0) [])).
  { unfold listener_configurer. rewrite Hopen. reflexivity. }
  destruct (main_done_delivers Hinv Hdone Hc Logger_handle_raises_only_Exception)
    as (order & Hin & Hout & Hl & Hq).
  destruct (handle_each_writes (emitted envs order) fh0) as [Hh Hd].
  rewrite Hh, Hd in Hl.
  exists order, (RotatingSink.write_texts
                   (map (RotatingSink.serialize fh0) (emitted envs order)) fh0).
  split; [exact Hin|]. split.
  { rewrite length_emitted. apply length_order; [|exact Hout].
    intros i Hi. rewrite (Hin i Hi). apply length_seq. }
  split; [exact Hl|]. split; [exact Hq|].
  intros Hrot. destruct (write_texts_without_rotation _ _ Hrot) as [Ha _].
  exact Ha.
Qed.

(** The run of the source itself, ten workers of ten steps each: once
    [main] has returned the listener has handled a hundred records and has
    returned. *)
Lemma source_run_delivers_a_hundred_records
      (envs : nat -> Worker.Env) (disk : Disk) (s : System.t Logging) :
  reachable Logger_handle (listener_configurer disk) (mkLogging None []) 10 10 envs s ->
  main_done 10 s ->
  openable disk = true ->
  exists st,
    listener s = LExited Returned st
    /\ List.length (handled st) = 100
    /\ stderr st = []
    /\ queued s = [].
Proof.
  intros Hreach Hdone Hopen.
  destruct (finished_run_delivers Hreach Hdone Hopen)
    as (order & fh & _ & Hlen & Hl & Hq & _).
  eexists. split; [exact Hl|]. cbn. auto.
Qed.

Lemma main_is_main_with_10 :
  Orchestrator.trace (snd (Orchestrator.main (Orchestrator.mkSt 0 [])))
  = Orchestrator.actions 10.
Proof. reflexivity. Qed.

End PipelineFacts.

(** C7. Three producers of five events each, fifteen in all, the sentinel
    sent by the orchestrator after it has joined the producers. Every run of
    the processes is finite (it has at most 54 steps), can go on as long as
    [main] has not returned, and once [main] has returned the consumer has
    handled exactly the fifteen events, each producer's in the order it
    emitted them, and has then stopped on the sentinel with the queue empty;
    the log file, empty at the start and with no write denied and no
    rotation, holds exactly fifteen lines, one per event. *)
Theorem three_producers_of_five_events_give_fifteen_lines
        (envs : nat -> Worker.Env) (disk : Disk)
        (sched : list System.agent) (s : System.t Logging) :
  System.exec Logger_handle (listener_configurer disk) (mkLogging None []) 3 5 envs
              sched (System.init Logging) = Some s ->
  openable disk = true ->
  existing disk = [] ->
  List.length sched + System.measure 3 5 s <= 54
  /\ (~ System.main_done 3 s ->
      exists a s',
        System.step Logger_handle (listener_configurer disk) (mkLogging None []) 3 5 envs a s
        = Some s')
  /\ (System.main_done 3 s ->
      exists order fh,
        (forall i, i < 3 -> System.steps_of i order = seq 0 5)
        /\ List.length (System.emitted envs order) = 15
        /\ System.listener s
           = System.LExited Listener.Returned
               (Listener.mkState (mkLogging (Some fh) []) []
                                 (map PyLogRecord (System.emitted envs order) ++ [PyNone])
                                 (System.emitted envs order))
        /\ System.queued s = []
        /\ (RotatingSink.rotations
              (map (fun r => (FMT show_Z r ++ RotatingSink.newline)%string)
                   (System.emitted envs order))
              (RotatingSink.open FILENAME (FMT show_Z) FILEROTATION_MAXBYTES
                                 FILEROTATION_NBACKUPS [] (existing_backups disk))
            = 0 ->
            RotatingSink.active fh
            = map (fun r => (FMT show_Z r ++ RotatingSink.newline)%string)
                  (System.emitted envs order)
            /\ List.length (RotatingSink.active fh) = 15)).
Proof.
  intros Hex Hopen Hempty.
  assert (Hreach : System.reachable Logger_handle (listener_configurer disk)
                                    (mkLogging None []) 3 5 envs s)
    by (exists sched; exact Hex).
  pose proof (invariant_reachable Hreach) as Hinv.
  split; [|split].
  - exact (exec_measure sched
             (invariant_init Logger_handle (listener_configurer disk)
                             (mkLogging None []) 3 5 envs) Hex).
  - intros Hnd. exact (progress Hinv Hnd).
  - intros Hdone.
    destruct (finished_run_delivers Hreach Hdone Hopen)
      as (order & fh & Hin & Hlen & Hl & Hq & Hfile).
    rewrite Hempty in Hfile. cbn [app] in Hfile.
    exists order, fh. split; [exact Hin|]. split; [exact Hlen|].
    split; [exact Hl|]. split; [exact Hq|].
    intros Hrot. rewrite (Hfile Hrot). split; [reflexivity|].
    rewrite length_map. exact Hlen.
Qed.

Lemma three_producers_of_five_events_give_fifteen_lines_witness :
  match System.exec Logger_handle (listener_configurer Sample.fresh_disk)
                    (mkLogging None []) 3 5 Sample.env
                    Sample.schedule_3x5 (System.init Logging) with
  | None => False
  | Some s =>
      System.main_done 3 s
      /\ exists order fh,
          List.length (System.emitted Sample.env order) = 15
          /\ System.listener s
             = System.LExited Listener.Returned
                 (Listener.mkState (mkLogging (Some fh) []) []
                    (map PyLogRecord (System.emitted Sample.env order) ++ [PyNone])
                    (System.emitted Sample.env order))
          /\ System.queued s = []
  end.
Proof.
  destruct (System.exec Logger_handle (listener_configurer Sample.fresh_disk)
                        (mkLogging None []) 3 5 Sample.env
                        Sample.schedule_3x5 (System.init Logging)) as [s|] eqn:E.
  - assert (Hdone : System.main_done 3 s).
    { vm_compute in E. injection E as <-. reflexivity. }
    split; [exact Hdone|].
    destruct (@three_producers_of_five_events_give_fifteen_lines
                Sample.env Sample.fresh_disk Sample.schedule_3x5 s E
                eq_refl eq_refl)
      as (_ & _ & H).
    destruct (H Hdone) as (order & fh & _ & Hlen & Hl & Hq & _).
    exists order, fh. auto.
  - vm_compute in E. discriminate.
Defined.

(** C2. The actions of [main] are, in this order: create the queue, start
    the listener, start every worker, join every worker, push one sentinel,
    join the listener; the sentinel is pushed exactly once. In every state
    the processes can reach together: once the sentinel has been pushed
    every worker has been joined and has exited; what has gone through the
    queue is records followed by at most that one sentinel; and once [main]
    has returned, the sentinel has been pushed and the listener has
    exited. *)
Theorem orchestrator_pushes_one_sentinel_after_joining_the_workers
        (nworkers : nat) :
  Orchestrator.actions nworkers
  = [Orchestrator.NewQueue (-1); Orchestrator.Start Orchestrator.ListenerProc]
      ++ map Orchestrator.start_worker (seq 0 nworkers)
      ++ map Orchestrator.join_worker (seq 0 nworkers)
      ++ [Orchestrator.PutNowait PyNone; Orchestrator.Join Orchestrator.ListenerProc]
  /\ forall (L : Type) (handle : string -> LogRecord -> L -> outcome L)
            (configurer : L -> outcome L) (l0 : L) (nsteps : nat)
            (envs : nat -> Worker.Env) (s : System.t L),
      System.reachable handle configurer l0 nworkers nsteps envs s ->
      (System.sentinel_pushed nworkers s = true <-> 2 * nworkers + 2 < System.pc s)
      /\ (System.sentinel_pushed nworkers s = true ->
          forall i, i < nworkers -> System.workers s i = System.WExited)
      /\ (exists records,
             System.consumed (System.listener s) ++ System.queued s
             = map PyLogRecord records
                 ++ (if System.sentinel_pushed nworkers s then [PyNone] else []))
      /\ (System.main_done nworkers s ->
          System.sentinel_pushed nworkers s = true
          /\ exists x st, System.listener s = System.LExited x st).
Proof.
  split; [apply actions_eq|].
  intros L handle configurer l0 nsteps envs s Hreach.
  pose proof (invariant_reachable Hreach) as Hinv.
  split; [apply sentinel_pushed_iff|]. split; [|split].
  - intros Hsent i Hi. apply sentinel_pushed_iff in Hsent.
    pose proof (System.inv_workers Hinv i) as Hw.
    destruct (System.workers s i); [lia|lia|reflexivity].
  - destruct (System.inv_stream Hinv) as (order & _ & Hstream).
    exists (System.emitted envs order). exact Hstream.
  - intros Hdone.
    destruct (main_done_workers_exited Hinv Hdone) as (_ & _ & Hsent).
    split; [exact Hsent|].
    apply (System.inv_listener_joined Hinv).
    unfold System.main_done in Hdone. rewrite length_actions in Hdone. exact Hdone.
Qed.

(** C8, as the code has it. An error met while one item is handled never
    leaves the listener loop if it is an instance of [Exception]: a listener
    that an exception has ended was ended by its configurer, before the loop,
    or by an exception that is no instance of [Exception]. Nothing of this
    reaches [main] or the workers. A failure of the configurer is fatal to
    the listener process alone: from every reachable state the run can be
    brought to the return of [main] with every worker exited, and when the
    configurer has failed the records of the workers and the sentinel are
    then in the queue, unread. *)
Theorem errors_of_the_listener_stay_in_the_listener
        (L : Type) (handle : string -> LogRecord -> L -> outcome L)
        (configurer : L -> outcome L) (l0 : L) (nworkers nsteps : nat)
        (envs : nat -> Worker.Env) (s : System.t L) :
  System.reachable handle configurer l0 nworkers nsteps envs s ->
  (forall e st,
      System.listener s = System.LExited (Listener.Propagated e) st ->
      (Listener.popped st = []
       /\ exists l, configurer l0 = Raise e l
                    /\ st = Listener.with_logging l (System.start_state l0))
      \/ isinstance_Exception e = false)
  /\ (exists sched s',
        System.exec handle configurer l0 nworkers nsteps envs sched s = Some s'
        /\ System.main_done nworkers s'
        /\ forall i, i < nworkers -> System.workers s' i = System.WExited)
  /\ (forall e l,
        configurer l0 = Raise e l ->
        System.main_done nworkers s ->
        System.listener s
        = System.LExited (Listener.Propagated e)
                         (Listener.with_logging l (System.start_state l0))
        /\ exists order,
            (forall i, i < nworkers -> System.steps_of i order = seq 0 nsteps)
            /\ System.queued s = map PyLogRecord (System.emitted envs order) ++ [PyNone]).
Proof.
  intros Hreach. pose proof (invariant_reachable Hreach) as Hinv.
  split; [|split].
  - intros e st El. exact (propagated_cases Hinv El).
  - destruct (@completion L handle configurer l0 nworkers nsteps envs _ s Hinv (le_n _))
      as (sched & s' & Hex & Hdone).
    exists sched, s'. split; [exact Hex|]. split; [exact Hdone|].
    apply (main_done_workers_exited (invariant_exec sched Hinv Hex) Hdone).
  - intros e l Hc Hdone.
    destruct (startup_failure_leaves_the_queue_unread Hinv Hdone Hc) as (Hl & _ & Hq).
    split; [exact Hl|exact Hq].
Qed.

Lemma errors_of_the_listener_stay_in_the_listener_witness :
  exists sched s',
    System.exec Logger_handle (listener_configurer Sample.locked_disk)
                (Sample.unconfigured []) 10 10 Sample.env sched (System.init Logging)
    = Some s'
    /\ System.main_done 10 s'
    /\ forall i, i < 10 -> System.workers s' i = System.WExited.
Proof.
  exact (proj1 (proj2
           (@errors_of_the_listener_stay_in_the_listener
              Logging Logger_handle (listener_configurer Sample.locked_disk)
              (Sample.unconfigured []) 10 10 Sample.env (System.init Logging)
              (ex_intro _ [] eq_refl)))).
Defined.

(** C8 as stated fails: with the log file impossible to open, the listener
    of the source dies in its configurer, and the ten workers are started
    all the same and run to their end; [main] returns, leaving the hundred
    records and the sentinel in the queue. *)
Lemma startup_failure_does_not_stop_the_workers :
  match System.exec Logger_handle (listener_configurer Sample.locked_disk)
                    (Sample.unconfigured []) 10 10 Sample.env
                    Sample.schedule_listener_configures_only (System.init Logging) with
  | None => False
  | Some s =>
      System.main_done 10 s
      /\ System.listener s
         = System.LExited
             (Listener.Propagated (Exception "OSError" "cannot open the log file"))
             (Sample.start (Sample.unconfigured []))
      /\ System.workers s 0 = System.WExited
      /\ System.workers s 9 = System.WExited
      /\ List.length (System.queued s) = 101
  end
  /\ ~ startup_failure_stops_the_workers Logger_handle
        (listener_configurer Sample.locked_disk) (Sample.unconfigured []) 10 10 Sample.env.
Proof.
  split.
  - vm_compute. repeat split; reflexivity.
  - intros H.
    specialize (H (Exception "OSError" "cannot open the log file")
                  (Sample.unconfigured [])
                  [System.Main; System.Main; System.ListenerAgent; System.Main]).
    cbn in H. specialize (H _ eq_refl eq_refl 0). discriminate.
Qed.

(** ** The listener's bookkeeping: further facts *)

Section ListenerBookkeeping.

Import Listener.

Variable L : Type.
Variable handle : string -> LogRecord -> L -> outcome L.

Lemma records_of_app (a b : list pyobj) :
  records_of (a ++ b) = records_of a ++ records_of b.
Proof. unfold records_of. apply flat_map_app. Qed.

Lemma items_of_app (a b : list get_result) :
  items_of (a ++ b) = items_of a ++ items_of b.
Proof. unfold items_of. apply flat_map_app. Qed.

Lemma items_of_map_Got (items : list pyobj) : items_of (map Got items) = items.
Proof.
  induction items as [|o items IH]; [reflexivity|].
  cbn [map]. change (Got o :: map Got items) with ([Got o] ++ map Got items).
  rewrite items_of_app, IH. reflexivity.
Qed.

Lemma records_of_map_PyLogRecord (evs : list LogRecord) :
  records_of (map PyLogRecord evs) = evs.
Proof.
  induction evs as [|r evs IH]; [reflexivity|].
  cbn [map]. change (PyLogRecord r :: map PyLogRecord evs)
    with ([PyLogRecord r] ++ map PyLogRecord evs).
  rewrite records_of_app, IH. reflexivity.
Qed.

Lemma reports_app (a b : list BaseException) : reports (a ++ b) = reports a ++ reports b.
Proof. unfold reports. apply flat_map_app. Qed.

(** What one iteration does to the bookkeeping, however it ends. *)
Lemma iteration_bookkeeping (g : get_result) (st : state L) :
  exists es,
    match iteration handle g st with
    | inl st' | inr (_, st') =>
        popped st' = popped st ++ items_of [g]
        /\ handled st' = handled st ++ records_of (items_of [g])
        /\ stderr st' = stderr st ++ reports es
    end
    /\ Forall (fun e => isinstance_Exception e = true) es
    /\ List.length es <= 1.
Proof.
  assert (Hnone : Forall (fun e => isinstance_Exception e = true) []) by constructor.
  assert (Hone : forall e, isinstance_Exception e = true ->
                           Forall (fun e => isinstance_Exception e = true) [e])
    by (intros e He; constructor; [exact He|constructor]).
  unfold iteration, try_block.
  destruct g as [[|r|o]|e]; cbn [items_of flat_map app records_of].
  - exists []. cbn. rewrite ?app_nil_r. repeat split; auto.
  - cbn [on_popped on_handle logging].
    destruct (handle (name r) r (logging st)) as [l|e l].
    + exists []. cbn. rewrite ?app_nil_r. repeat split; auto.
    + destruct (isinstance_Exception e) eqn:He.
      * exists [e]. cbn. rewrite ?app_nil_r. repeat split; auto.
      * exists []. cbn. rewrite ?app_nil_r. repeat split; auto.
  - exists [AttributeError_name]. cbn. rewrite ?app_nil_r. repeat split; auto.
  - destruct (isinstance_Exception e) eqn:He.
    + exists [e]. cbn. rewrite ?app_nil_r. repeat split; auto.
    + exists []. cbn. rewrite ?app_nil_r. repeat split; auto.
Qed.

Lemma handle_each_app (a b : list LogRecord) (l : L) :
  handle_each handle (a ++ b) l = handle_each handle b (handle_each handle a l).
Proof. unfold handle_each. apply fold_left_app. Qed.

(** One iteration calls the handler on the record popped, if a record was
    popped, and leaves the logging state alone otherwise. *)
Lemma iteration_logging (g : get_result) (st : state L) :
  match iteration handle g st with
  | inl st' | inr (_, st') =>
      logging st' = handle_each handle (records_of (items_of [g])) (logging st)
  end.
Proof.
  unfold iteration, try_block.
  destruct g as [[|r|o]|e]; cbn [items_of flat_map app records_of handle_each fold_left].
  - reflexivity.
  - cbn [on_popped on_handle logging].
    destruct (handle (name r) r (logging st)) as [l|e l]; cbn; [reflexivity|].
    destruct (isinstance_Exception e); reflexivity.
  - reflexivity.
  - destruct (isinstance_Exception e); reflexivity.
Qed.

(** What a run of the loop does to the bookkeeping, however it ends:
    [consumed] are the calls of [queue.get()] it made. *)
Lemma listener_loop_bookkeeping (gets : list get_result) :
  forall st : state L,
    exists consumed es,
      gets = consumed ++ unread (listener_loop handle gets st)
      /\ popped (final (listener_loop handle gets st)) = popped st ++ items_of consumed
      /\ handled (final (listener_loop handle gets st))
         = handled st ++ records_of (items_of consumed)
      /\ stderr (final (listener_loop handle gets st)) = stderr st ++ reports es
      /\ Forall (fun e => isinstance_Exception e = true) es
      /\ List.length es <= List.length consumed.
Proof.
  induction gets as [|g gets IH]; intros st.
  - exists [], []. cbn. rewrite !app_nil_r. repeat split; auto.
  - cbn [listener_loop].
    destruct (iteration_bookkeeping g st) as (es1 & Hit & Hes1 & Hlen1).
    destruct (iteration handle g st) as [st'|[x st']] eqn:E.
    + destruct Hit as (Hp & Hh & He).
      destruct (IH st') as (consumed & es & Hg & Hp' & Hh' & He' & Hes & Hlen).
      exists (g :: consumed), (es1 ++ es).
      rewrite Hp', Hh', He', Hp, Hh, He, reports_app, length_app.
      change (g :: consumed) with ([g] ++ consumed).
      rewrite items_of_app, records_of_app, <- !app_assoc.
      split; [cbn; f_equal; exact Hg|].
      split; [reflexivity|]. split; [reflexivity|]. split; [reflexivity|].
      split; [apply Forall_app; auto|]. cbn [List.length app]. lia.
    + destruct Hit as (Hp & Hh & He).
      exists [g], es1. cbn [unread final app List.length].
      split; [reflexivity|]. auto.
Qed.

(** Calls of [queue.get()] that keep the loop going are all consumed. *)
Lemma listener_loop_keeps_looping (gets : list get_result) :
  raises_only_Exception handle ->
  Forall keeps_looping gets ->
  forall (rest : list get_result) (st : state L),
    exists st',
      listener_loop handle (gets ++ rest) st = listener_loop handle rest st'
      /\ popped st' = popped st ++ items_of gets
      /\ handled st' = handled st ++ records_of (items_of gets).
Proof.
  intros Hc Hall. induction Hall as [|g gets Hg Hall IH]; intros rest st.
  - exists st. cbn. rewrite !app_nil_r. auto.
  - cbn [app listener_loop].
    destruct (iteration_bookkeeping g st) as (es1 & Hit & _ & _).
    assert (Hgo : exists st1, iteration handle g st = inl st1).
    { unfold iteration, try_block. destruct g as [[|r|o]|e]; cbn in Hg |- *.
      - destruct Hg.
      - destruct (handle (name r) r (logging st)) as [l|e l] eqn:Hh; [eauto|].
        rewrite (Hc _ _ _ _ _ Hh). eauto.
      - eauto.
      - rewrite Hg. eauto. }
    destruct Hgo as [st1 Hst1]. rewrite Hst1 in Hit |- *.
    destruct Hit as (Hp & Hh & _).
    destruct (IH rest st1) as (st' & Hrun & Hp' & Hh').
    exists st'. rewrite Hrun, Hp', Hh', Hp, Hh.
    change (g :: gets) with ([g] ++ gets).
    rewrite items_of_app, records_of_app, <- !app_assoc. auto.
Qed.

(** A run of items without the sentinel, the records among them handled
    without a failure: each object without a [name] costs one report, and
    the loop goes on. *)
Lemma listener_loop_items (items : list pyobj) :
  ~ In PyNone items ->
  forall (rest : list get_result) (st : state L) (l : L),
    handle_all handle (records_of items) (logging st) = Some l ->
    listener_loop handle (map Got items ++ rest) st
    = listener_loop handle rest
        (mkState l
                 (stderr st ++ reports (map (fun _ => AttributeError_name)
                                            (malformed_of items)))
                 (popped st ++ items)
                 (handled st ++ records_of items)).
Proof.
  induction items as [|o items IH]; intros Hno rest st l Hall.
  - cbn in *. injection Hall as <-. rewrite !app_nil_r. destruct st; reflexivity.
  - assert (Hno' : ~ In PyNone items) by (intros H; apply Hno; right; exact H).
    cbn [map app listener_loop]. unfold iteration, try_block.
    destruct o as [|r|x].
    + exfalso. apply Hno. left. reflexivity.
    + cbn [records_of flat_map app] in Hall. fold (records_of items) in Hall.
      cbn [handle_all] in Hall. cbn [on_popped on_handle logging].
      destruct (handle (name r) r (logging st)) as [l1|e l1] eqn:Hh; [|discriminate].
      rewrite (IH Hno' rest _ l) by exact Hall.
      cbn. rewrite <- !app_assoc. reflexivity.
    + cbn [isinstance_Exception AttributeError_name].
      rewrite (IH Hno' rest _ l) by exact Hall.
      cbn. rewrite <- !app_assoc. reflexivity.
Qed.

End ListenerBookkeeping.

(** X1. However a run of the loop ends (on the sentinel, by an exception that
    [except Exception] lets through, or waiting), and whatever [queue.get()]
    and the handler do: the calls of [queue.get()] split into those made and
    those left; the items popped are the items the calls made handed out;
    [logger.handle] has been called on exactly the log records among the
    items popped, each once and in the order popped, and on nothing else: the
    logging state at the end is the one these calls, in this order, lead to
    from the logging state at the start. *)
Theorem listener_hands_over_exactly_the_records_it_pops
        (L : Type) (handle : string -> LogRecord -> L -> outcome L)
        (gets : list Listener.get_result) (st : Listener.state L) :
  exists consumed,
    gets = consumed ++ Listener.unread (Listener.listener_loop handle gets st)
    /\ Listener.popped (Listener.final (Listener.listener_loop handle gets st))
       = Listener.popped st ++ items_of consumed
    /\ Listener.handled (Listener.final (Listener.listener_loop handle gets st))
       = Listener.handled st ++ records_of (items_of consumed)
    /\ Listener.logging (Listener.final (Listener.listener_loop handle gets st))
       = handle_each handle (records_of (items_of consumed)) (Listener.logging st).
Proof.
  revert st. induction gets as [|g gets IH]; intros st.
  - exists []. cbn. rewrite !app_nil_r. auto.
  - cbn [Listener.listener_loop].
    destruct (iteration_bookkeeping handle g st) as (es1 & Hit & _ & _).
    pose proof (iteration_logging handle g st) as Hlog.
    destruct (Listener.iteration handle g st) as [st'|[x st']] eqn:E.
    + destruct Hit as (Hp & Hh & _).
      destruct (IH st') as (consumed & Hg & Hp' & Hh' & Hl').
      exists (g :: consumed). rewrite Hp', Hh', Hl', Hp, Hh, Hlog.
      change (g :: consumed) with ([g] ++ consumed).
      rewrite items_of_app, records_of_app, handle_each_app, <- !app_assoc.
      split; [cbn; f_equal; exact Hg|]. auto.
    + destruct Hit as (Hp & Hh & _).
      exists [g]. cbn [Listener.unread Listener.final app]. auto.
Qed.

(** X3. An object in the queue that is no log record (it has no [name]
    attribute) does not end the listener: in a run of items other than the
    sentinel, the records among which are handled without a failure, each
    such object is popped, costs one report of an [AttributeError] and is
    skipped; the records are handled as if the objects were not there, and
    the loop returns on the sentinel that follows. *)
Theorem objects_without_name_are_reported_and_skipped
        (L : Type) (handle : string -> LogRecord -> L -> outcome L)
        (items : list pyobj) (after_sentinel : list Listener.get_result)
        (st : Listener.state L) (l : L) :
  ~ In PyNone items ->
  handle_all handle (records_of items) (Listener.logging st) = Some l ->
  Listener.listener_loop handle
    (map Listener.Got items ++ Listener.Got PyNone :: after_sentinel) st
  = Listener.mkRun Listener.Returned
      (Listener.mkState
         l
         (Listener.stderr st
            ++ reports (map (fun _ => AttributeError_name) (malformed_of items)))
         (Listener.popped st ++ items ++ [PyNone])
         (Listener.handled st ++ records_of items))
      after_sentinel.
Proof.
  intros Hno Hall.
  rewrite (@listener_loop_items L handle items Hno _ st l Hall).
  rewrite listener_loop_sentinel. unfold Listener.on_popped. cbn.
  rewrite <- app_assoc. reflexivity.
Qed.

Lemma objects_without_name_are_reported_and_skipped_witness :
  let items := [PyLogRecord (Sample.record 1 0); PyOther "42";
                PyLogRecord (Sample.record 1 1); PyOther "[]"] in
  Listener.listener_loop Logger_handle
    (map Listener.Got items ++ Listener.Got PyNone :: []) (Sample.start (Sample.configured []))
  = Listener.mkRun Listener.Returned
      (Listener.mkState
         (handle_each Logger_handle (Sample.records 1 2) (Sample.configured []))
         ([] ++ reports [AttributeError_name; AttributeError_name])
         ([] ++ items ++ [PyNone])
         ([] ++ Sample.records 1 2))
      [].
Proof.
  intros items.
  apply (@objects_without_name_are_reported_and_skipped
           Logging Logger_handle items [] (Sample.start (Sample.configured []))
           (handle_each Logger_handle (Sample.records 1 2) (Sample.configured []))).
  - intros [H|[H|[H|[H|[]]]]]; discriminate.
  - vm_compute. reflexivity.
Defined.

(** X4. The loop has no way out but the sentinel and the exceptions that
    [except Exception] lets through: on calls of [queue.get()] that hand out
    no sentinel and raise instances of [Exception] only, with a handler that
    fails with instances of [Exception] only, it consumes every call, hands
    every record popped to the handler, and is then waiting in
    [queue.get()]. *)
Theorem without_a_sentinel_the_listener_keeps_waiting
        (L : Type) (handle : string -> LogRecord -> L -> outcome L)
        (gets : list Listener.get_result) (st : Listener.state L) :
  raises_only_Exception handle ->
  Forall keeps_looping gets ->
  Listener.how (Listener.listener_loop handle gets st) = Listener.Blocked
  /\ Listener.unread (Listener.listener_loop handle gets st) = []
  /\ Listener.popped (Listener.final (Listener.listener_loop handle gets st))
     = Listener.popped st ++ items_of gets
  /\ Listener.handled (Listener.final (Listener.listener_loop handle gets st))
     = Listener.handled st ++ records_of (items_of gets).
Proof.
  intros Hc Hall.
  destruct (@listener_loop_keeps_looping L handle gets Hc Hall [] st)
    as (st' & Hrun & Hp & Hh).
  rewrite app_nil_r in Hrun. rewrite Hrun. cbn. auto.
Qed.

Lemma without_a_sentinel_the_listener_keeps_waiting_witness :
  let gets := [Listener.Got (PyLogRecord (Sample.record 1 0));
               Listener.GetRaised (Exception "EOFError" "");
               Listener.Got (PyOther "42");
               Listener.Got (PyLogRecord (Sample.record 1 1))] in
  Listener.how (Listener.listener_loop Logger_handle gets
                  (Sample.start (Sample.configured [false; true])))
  = Listener.Blocked
  /\ Listener.handled
       (Listener.final (Listener.listener_loop Logger_handle gets
                          (Sample.start (Sample.configured [false; true]))))
     = [] ++ Sample.records 1 2.
Proof.
  intros gets.
  destruct (@without_a_sentinel_the_listener_keeps_waiting
              Logging Logger_handle gets (Sample.start (Sample.configured [false; true]))
              Logger_handle_raises_only_Exception)
    as (H1 & _ & _ & H2).
  - repeat constructor.
  - split; [exact H1|exact H2].
Defined.

(** ** The processes running together: further facts *)

Section SystemFurtherFacts.

Import Listener Orchestrator System.

Variable L : Type.
Variable handle : string -> LogRecord -> L -> outcome L.
Variable configurer : L -> outcome L.
Variable l0 : L.
Variable nworkers nsteps : nat.
Variable envs : nat -> Worker.Env.

Local Abbreviation sys := (System.t L).
Local Abbreviation step := (System.step handle configurer l0 nworkers nsteps envs).
Local Abbreviation invariant := (System.invariant handle configurer l0 nworkers nsteps envs).
Local Abbreviation emitted := (System.emitted envs).
Local Abbreviation start_state := (System.start_state l0).

(** The listener of a state is where [listener_process], run on its own on
    the items popped so far, is. *)
Lemma listener_is_listener_process (s : sys) :
  invariant s ->
  match listener s with
  | LRunning st =>
      listener_process handle (map Got (popped st)) configurer start_state
      = mkRun Blocked st []
  | LExited x st =>
      listener_process handle (map Got (popped st)) configurer start_state
      = mkRun x st []
      /\ x <> Blocked
  | _ => True
  end.
Proof.
  intros Hinv. pose proof (inv_listener Hinv) as Hl.
  destruct (listener s) as [| |st|x st]; try exact I.
  - destruct Hl as (lc & Hc & Hloop). specialize (Hloop []).
    rewrite app_nil_r in Hloop. unfold listener_process.
    cbn [logging System.start_state]. rewrite Hc. exact Hloop.
  - destruct Hl as [Hnb Hrun]. specialize (Hrun []). rewrite app_nil_r in Hrun. auto.
Qed.

Lemma listener_process_bookkeeping (gets : list get_result) :
  exists consumed,
    gets = consumed
             ++ unread (listener_process handle gets configurer start_state)
    /\ popped (final (listener_process handle gets configurer start_state))
       = items_of consumed
    /\ handled (final (listener_process handle gets configurer start_state))
       = records_of (items_of consumed).
Proof.
  unfold listener_process. cbn [logging System.start_state].
  destruct (configurer l0) as [lc|e l].
  - destruct (listener_loop_bookkeeping handle gets (with_logging lc (mkState l0 [] [] [])))
      as (consumed & es & Hg & Hp & Hh & _).
    exists consumed. auto.
  - exists []. cbn. auto.
Qed.

(** The listener has handled exactly the records it has popped. *)
Lemma handled_by_records (s : sys) :
  invariant s ->
  handled_by (listener s) = records_of (consumed (listener s)).
Proof.
  intros Hinv. pose proof (listener_is_listener_process Hinv) as Hl.
  destruct (listener s) as [| |st|x st]; try reflexivity; cbn [handled_by consumed].
  - destruct (listener_process_bookkeeping (map Got (popped st))) as (c & Hg & Hp & Hh).
    rewrite Hl in Hg, Hp, Hh. cbn [unread final] in Hg, Hp, Hh.
    rewrite app_nil_r in Hg. rewrite Hh, <- Hg, items_of_map_Got. reflexivity.
  - destruct Hl as [Hl _].
    destruct (listener_process_bookkeeping (map Got (popped st))) as (c & Hg & Hp & Hh).
    rewrite Hl in Hg, Hp, Hh. cbn [unread final] in Hg, Hp, Hh.
    rewrite app_nil_r in Hg. rewrite Hh, <- Hg, items_of_map_Got. reflexivity.
Qed.

Lemma split_at_sentinel (before : list pyobj) (evs : list LogRecord) (x y : list pyobj) :
  ~ In PyNone before ->
  before ++ PyNone :: x = map PyLogRecord evs ++ PyNone :: y ->
  before = map PyLogRecord evs /\ x = y.
Proof.
  revert evs. induction before as [|o before IH]; intros [|r evs] Hno H; cbn in H.
  - injection H as <-. auto.
  - discriminate.
  - injection H as -> _. exfalso. apply Hno. left. reflexivity.
  - injection H as -> H.
    destruct (IH evs (fun Hin => Hno (or_intror Hin)) H) as [-> ->]. auto.
Qed.

(** A listener that has returned has read the sentinel after everything the
    workers push. *)
Lemma returned_listener_has_delivered (s : sys) (st : state L) :
  invariant s -> listener s = LExited Returned st ->
  exists order,
    handled st = emitted order
    /\ popped st = map PyLogRecord (emitted order) ++ [PyNone]
    /\ (forall i, i < nworkers -> steps_of i order = seq 0 nsteps)
    /\ (forall i, nworkers <= i -> steps_of i order = [])
    /\ queued s = []
    /\ sentinel_pushed nworkers s = true
    /\ (forall i, i < nworkers -> workers s i = WExited).
Proof.
  intros Hinv El.
  pose proof (handled_by_records Hinv) as Hh.
  pose proof (listener_is_listener_process Hinv) as Hl.
  destruct (inv_stream Hinv) as (order & Hord & Hstream).
  pose proof (inv_workers Hinv) as Hw.
  rewrite El in Hh, Hl, Hstream. cbn [handled_by consumed] in Hh, Hstream.
  destruct Hl as [Hrun _]. unfold listener_process in Hrun.
  cbn [logging System.start_state] in Hrun.
  destruct (configurer l0) as [lc|e l]; [|discriminate].
  pose proof (listener_loop_exit_cases handle (map Got (popped st))
                (with_logging lc start_state)) as Hcases.
  rewrite Hrun in Hcases. cbn in Hcases. destruct Hcases as (before & Hp & Hno).
  rewrite Hp in Hstream. rewrite <- app_assoc in Hstream. cbn [app] in Hstream.
  destruct (sentinel_pushed nworkers s) eqn:Hsent.
  - destruct (split_at_sentinel before (emitted order) (queued s) [] Hno Hstream)
      as [Hb Hq].
    assert (Hex : forall i, i < nworkers -> workers s i = WExited).
    { apply sentinel_pushed_iff in Hsent. intros i Hi. specialize (Hw i).
      destruct (workers s i); [lia|lia|reflexivity]. }
    exists order. rewrite Hh, Hp, Hb, records_of_app, records_of_map_PyLogRecord.
    cbn. rewrite app_nil_r.
    split; [reflexivity|]. split; [reflexivity|]. split.
    { intros i Hi. rewrite Hord, (Hex i Hi). reflexivity. }
    split.
    { intros i Hi. rewrite Hord. specialize (Hw i).
      destruct (workers s i); [reflexivity|lia|lia]. }
    auto.
  - exfalso. rewrite app_nil_r in Hstream.
    assert (Hin : In PyNone (map PyLogRecord (emitted order))).
    { rewrite <- Hstream. apply in_or_app. right. left. reflexivity. }
    apply in_map_iff in Hin as (r & Hr & _). discriminate.
Qed.

(** When [main] has returned no process can take a step. *)
Lemma main_done_is_final (s : sys) (a : agent) :
  invariant s -> main_done nworkers s -> step a s = None.
Proof.
  intros Hinv Hdone.
  destruct (main_done_workers_exited Hinv Hdone) as (Hex & Hns & _).
  unfold main_done in Hdone.
  destruct a as [|i|]; cbn [System.step].
  - unfold System.step_main.
    replace (nth_error (actions nworkers) (pc s)) with (@None action); [reflexivity|].
    symmetry. apply nth_error_None. rewrite Hdone. apply le_n.
  - unfold System.step_worker.
    destruct (Nat.lt_ge_cases i nworkers) as [Hi|Hi].
    + rewrite (Hex i Hi). reflexivity.
    + rewrite (Hns i Hi). reflexivity.
  - unfold System.step_listener. rewrite length_actions in Hdone.
    destruct (inv_listener_joined Hinv Hdone) as (x & st & El). rewrite El. reflexivity.
Qed.

Lemma list_sum_const (c a n : nat) :
  list_sum (map (fun _ : nat => c) (seq a n)) = n * c.
Proof.
  revert a. induction n as [|n IH]; intros a; [reflexivity|].
  cbn [seq map]. change (list_sum (c :: ?l)) with (c + list_sum l).
  cbn [list_sum fold_right]. fold (list_sum (map (fun _ : nat => c) (seq (S a) n))).
  rewrite IH. lia.
Qed.

Lemma measure_init :
  measure nworkers nsteps (System.init L) = 2 * nworkers * nsteps + 5 * nworkers + 9.
Proof.
  unfold measure, queued. cbn [pc queue listener workers System.init listener_measure
                               worker_measure List.length].
  rewrite list_sum_const. nia.
Qed.

End SystemFurtherFacts.

Lemma run_3x5_reachable (sched : list System.agent) :
  System.reachable Logger_handle (listener_configurer Sample.fresh_disk)
                   (mkLogging None []) 3 5 Sample.env (run_3x5 sched).
Proof.
  unfold run_3x5.
  destruct (System.exec Logger_handle (listener_configurer Sample.fresh_disk)
                        (mkLogging None []) 3 5 Sample.env sched (System.init Logging))
    as [s|] eqn:E.
  - exists sched. exact E.
  - exists []. reflexivity.
Defined.

(** X7. The listener never stops early. In every reachable state in which
    the listener has returned, whatever the handler did on the way: [main]
    has pushed the sentinel, every worker has exited after all its loop
    steps, the queue is empty, and the listener has handled exactly the
    records the workers pushed, [nworkers * nsteps] of them, the records of
    each worker being, in order, those [worker_process] pushes. *)
Theorem returned_listener_has_handled_every_record
        (L : Type) (handle : string -> LogRecord -> L -> outcome L)
        (configurer : L -> outcome L) (l0 : L) (nworkers nsteps : nat)
        (envs : nat -> Worker.Env) (s : System.t L) (st : Listener.state L) :
  System.reachable handle configurer l0 nworkers nsteps envs s ->
  System.listener s = System.LExited Listener.Returned st ->
  exists order,
    Listener.handled st = System.emitted envs order
    /\ List.length (Listener.handled st) = nworkers * nsteps
    /\ (forall i, i < nworkers ->
                  System.emitted envs (filter (fun ik => (fst ik =? i)%nat) order)
                  = Worker.worker_process_with nsteps Worker.worker_configurer (envs i))
    /\ System.queued s = []
    /\ System.sentinel_pushed nworkers s = true
    /\ (forall i, i < nworkers -> System.workers s i = System.WExited).
Proof.
  intros Hreach El.
  destruct (returned_listener_has_delivered (invariant_reachable Hreach) El)
    as (order & Hh & _ & Hin & Hout & Hq & Hsent & Hex).
  exists order. split; [exact Hh|]. split.
  { rewrite Hh, length_emitted. apply length_order; [|exact Hout].
    intros i Hi. rewrite (Hin i Hi). apply length_seq. }
  split.
  { intros i Hi. apply emitted_of_finished_worker. exact (Hin i Hi). }
  auto.
Qed.

Lemma returned_listener_has_handled_every_record_witness :
  exists order,
    Listener.handled (listener_state_of (run_3x5 Sample.schedule_3x5))
    = System.emitted Sample.env order
    /\ List.length (Listener.handled (listener_state_of (run_3x5 Sample.schedule_3x5)))
       = 3 * 5.
Proof.
  destruct (@returned_listener_has_handled_every_record
              Logging Logger_handle (listener_configurer Sample.fresh_disk)
              (mkLogging None []) 3 5 Sample.env (run_3x5 Sample.schedule_3x5)
              (listener_state_of (run_3x5 Sample.schedule_3x5))
              (run_3x5_reachable Sample.schedule_3x5))
    as (order & H1 & H2 & _).
  - vm_compute. reflexivity.
  - exists order. split; [exact H1|exact H2].
Defined.

(** X8. Nothing is lost, duplicated or reordered on the way. In every
    reachable state, what the listener has popped followed by what waits in
    the queue is exactly what the workers have pushed so far, in the order
    pushed, followed by the sentinel if [main] has pushed it; each worker's
    records are there in the order of its loop, one per step done; and the
    listener has passed to [logger.handle] exactly the records it has
    popped. *)
Theorem records_in_transit_are_the_records_pushed
        (L : Type) (handle : string -> LogRecord -> L -> outcome L)
        (configurer : L -> outcome L) (l0 : L) (nworkers nsteps : nat)
        (envs : nat -> Worker.Env) (s : System.t L) :
  System.reachable handle configurer l0 nworkers nsteps envs s ->
  exists order,
    (forall i, System.steps_of i order
               = seq 0 (System.done_steps nsteps (System.workers s i)))
    /\ System.consumed (System.listener s) ++ System.queued s
       = map PyLogRecord (System.emitted envs order)
           ++ (if System.sentinel_pushed nworkers s then [PyNone] else [])
    /\ handled_by (System.listener s) = records_of (System.consumed (System.listener s)).
Proof.
  intros Hreach. pose proof (invariant_reachable Hreach) as Hinv.
  destruct (System.inv_stream Hinv) as (order & Hord & Hstream).
  exists order. split; [exact Hord|]. split; [exact Hstream|].
  exact (handled_by_records Hinv).
Qed.

Lemma records_in_transit_are_the_records_pushed_witness :
  exists order,
    (forall i, System.steps_of i order
               = seq 0 (System.done_steps
                          5 (System.workers (run_3x5 (firstn 14 Sample.schedule_3x5)) i)))
    /\ System.consumed (System.listener (run_3x5 (firstn 14 Sample.schedule_3x5)))
         ++ System.queued (run_3x5 (firstn 14 Sample.schedule_3x5))
       = map PyLogRecord (System.emitted Sample.env order)
           ++ (if System.sentinel_pushed 3 (run_3x5 (firstn 14 Sample.schedule_3x5))
               then [PyNone] else [])
    /\ handled_by (System.listener (run_3x5 (firstn 14 Sample.schedule_3x5)))
       = records_of (System.consumed
                       (System.listener (run_3x5 (firstn 14 Sample.schedule_3x5)))).
Proof.
  exact (@records_in_transit_are_the_records_pushed
           Logging Logger_handle (listener_configurer Sample.fresh_disk)
           (mkLogging None []) 3 5 Sample.env (run_3x5 (firstn 14 Sample.schedule_3x5))
           (run_3x5_reachable (firstn 14 Sample.schedule_3x5))).
Defined.

(** X9. The processes never block one another for good, and stop only when
    the work is done: in a reachable state no process can take a step
    exactly when [main] has returned. Until then some process can always go
    on, whether the listener is alive or has died. *)
Theorem the_system_stops_exactly_when_main_has_returned
        (L : Type) (handle : string -> LogRecord -> L -> outcome L)
        (configurer : L -> outcome L) (l0 : L) (nworkers nsteps : nat)
        (envs : nat -> Worker.Env) (s : System.t L) :
  System.reachable handle configurer l0 nworkers nsteps envs s ->
  (forall a, System.step handle configurer l0 nworkers nsteps envs a s = None)
  <-> System.main_done nworkers s.
Proof.
  intros Hreach. pose proof (invariant_reachable Hreach) as Hinv. split.
  - intros Hstuck.
    destruct (@main_done_dec L nworkers s) as [Hd|Hnd]; [exact Hd|].
    destruct (progress Hinv Hnd) as (a & s' & Hs). rewrite Hstuck in Hs. discriminate.
  - intros Hdone a. exact (main_done_is_final a Hinv Hdone).
Qed.

Lemma the_system_stops_exactly_when_main_has_returned_witness :
  (forall a, System.step Logger_handle (listener_configurer Sample.fresh_disk)
                         (mkLogging None []) 3 5 Sample.env a
                         (run_3x5 Sample.schedule_3x5) = None)
  <-> System.main_done 3 (run_3x5 Sample.schedule_3x5).
Proof.
  exact (@the_system_stops_exactly_when_main_has_returned
           Logging Logger_handle (listener_configurer Sample.fresh_disk)
           (mkLogging None []) 3 5 Sample.env (run_3x5 Sample.schedule_3x5)
           (run_3x5_reachable Sample.schedule_3x5)).
Defined.

(** X10. Every run is finite: whatever the schedule, the handler and the
    configurer, a run of [nworkers] workers of [nsteps] loop steps each has
    at most [2 * nworkers * nsteps + 5 * nworkers + 9] steps (259 for the ten
    workers of ten steps of the source). *)
Theorem every_run_is_finite
        (L : Type) (handle : string -> LogRecord -> L -> outcome L)
        (configurer : L -> outcome L) (l0 : L) (nworkers nsteps : nat)
        (envs : nat -> Worker.Env) (sched : list System.agent) (s : System.t L) :
  System.exec handle configurer l0 nworkers nsteps envs sched (System.init L) = Some s ->
  List.length sched <= 2 * nworkers * nsteps + 5 * nworkers + 9.
Proof.
  intros Hex.
  pose proof (exec_measure sched
                (invariant_init handle configurer l0 nworkers nsteps envs) Hex) as H.
  rewrite measure_init in H. lia.
Qed.

Lemma every_run_is_finite_witness :
  List.length Sample.schedule_listener_configures_only <= 2 * 10 * 10 + 5 * 10 + 9.
Proof.
  assert (E : exists s,
             System.exec Logger_handle (listener_configurer Sample.locked_disk)
                         (Sample.unconfigured []) 10 10 Sample.env
                         Sample.schedule_listener_configures_only (System.init Logging)
             = Some s).
  { destruct (System.exec Logger_handle (listener_configurer Sample.locked_disk)
                          (Sample.unconfigured []) 10 10 Sample.env
                          Sample.schedule_listener_configures_only (System.init Logging))
      as [s|] eqn:E; [exists s; reflexivity|].
    vm_compute in E. discriminate. }
  destruct E as [s E].
  exact (@every_run_is_finite Logging Logger_handle (listener_configurer Sample.locked_disk)
           (Sample.unconfigured []) 10 10 Sample.env
           Sample.schedule_listener_configures_only s E).
Defined.

(** ** The worker and the script: further facts *)

Lemma flat_map_singletons {A B : Type} (f : A -> list B) (g : A -> B) (l : list A) :
  (forall x, f x = [g x]) -> flat_map f l = map g l.
Proof.
  intros H. induction l as [|x l IH]; [reflexivity|]. cbn. rewrite H, IH. reflexivity.
Qed.

Lemma flat_map_nils {A B : Type} (f : A -> list B) (l : list A) :
  (forall x, f x = []) -> flat_map f l = [].
Proof.
  intros H. induction l as [|x l IH]; [reflexivity|]. cbn. rewrite H, IH. reflexivity.
Qed.

Lemma string_length_append (a b : string) :
  String.length (a ++ b) = String.length a + String.length b.
Proof. induction a as [|c a IH]; cbn; [|rewrite IH]; reflexivity. Qed.

Lemma show_width3_length (i : nat) :
  i < 1000 -> String.length (RotatingLogging.show_width3 i) = 3.
Proof.
  intros Hi.
  assert (Hall : forallb (fun i => (String.length (RotatingLogging.show_width3 i) =? 3)%nat)
                         (seq 0 1000) = true) by (vm_compute; reflexivity).
  rewrite forallb_forall in Hall. apply Nat.eqb_eq. apply Hall. apply in_seq. lia.
Qed.

(** X11. A worker pushes one record for each pass through its loop and
    nothing else: run with [worker_configurer], [worker_process] (its loop
    bound a parameter, 10 in the source) pushes as many records as the loop
    has steps, in the order of the steps, each at level [DEBUG], under the
    id of the process, named after one of [LOGGERS] and carrying the number
    of its step in its message; run with a configurer that leaves the root
    logger as it is, it pushes nothing at all. *)
Theorem worker_pushes_one_record_per_step
        (nsteps : nat) (env : Worker.Env) :
  List.length (Worker.worker_process_with nsteps Worker.worker_configurer env) = nsteps
  /\ (forall r,
        In r (Worker.worker_process_with nsteps Worker.worker_configurer env) ->
        levelno r = DEBUG /\ In (name r) LOGGERS /\ process r = Worker.pid env)
  /\ map message (Worker.worker_process_with nsteps Worker.worker_configurer env)
     = map (fun i => ("Child proces " ++ Worker.dquote ++ Worker.proc_name env
                        ++ Worker.dquote ++ " step " ++ show_nat i ++ ": slept for "
                        ++ Worker.random env i ++ "[s] ")%string)
           (seq 0 nsteps)
  /\ Worker.worker_process_with nsteps (fun l => l) env = [].
Proof.
  assert (Hrun : Worker.worker_process_with nsteps Worker.worker_configurer env
                 = map (fun i => mkLogRecord
                                   (nth (Worker.choice env i mod 3) LOGGERS EmptyString)
                                   LEVEL "DEBUG" (Worker.pid env) (Worker.clock env i)
                                   ("Child proces " ++ Worker.dquote ++ Worker.proc_name env
                                      ++ Worker.dquote ++ " step " ++ show_nat i
                                      ++ ": slept for " ++ Worker.random env i
                                      ++ "[s] ")%string)
                       (seq 0 nsteps)).
  { unfold Worker.worker_process_with. cbv zeta. apply flat_map_singletons.
    intros i. apply worker_step_one_record. }
  split; [|split; [|split]].
  - rewrite Hrun, length_map. apply length_seq.
  - intros r Hr. rewrite Hrun in Hr. apply in_map_iff in Hr as (i & <- & _).
    cbn [levelno name process]. split; [reflexivity|]. split; [|reflexivity].
    apply nth_In. cbn [LOGGERS List.length]. apply Nat.mod_upper_bound. discriminate.
  - rewrite Hrun, map_map. reflexivity.
  - unfold Worker.worker_process_with. cbv zeta. apply flat_map_nils.
    intros i. apply unconfigured_worker_pushes_nothing.
Qed.

(** X12. The lines of [rotating_logging.py] have a fixed width: as long as
    the count is below 1000 (the script stops at 99) the field [{i:3}] is
    exactly three characters wide, so that every formatted line is 48
    characters longer than its time stamp, whatever the count. *)
Theorem rotating_logging_lines_have_a_fixed_width
        (clock : nat -> string) (pid : Z) (i : nat) :
  i < 1000 ->
  String.length (RotatingLogging.show_width3 i) = 3
  /\ String.length (RotatingLogging.fmt (RotatingLogging.record clock pid i))
     = String.length (clock i) + 48.
Proof.
  intros Hi. pose proof (show_width3_length Hi) as H3. split; [exact H3|].
  unfold RotatingLogging.fmt, RotatingLogging.record.
  cbn [asctime name levelname message].
  rewrite !string_length_append, H3. cbn [String.length]. lia.
Qed.

Lemma rotating_logging_lines_have_a_fixed_width_witness :
  String.length (RotatingLogging.show_width3 7) = 3
  /\ String.length (RotatingLogging.fmt
                      (RotatingLogging.record (fun _ => "2020-05-17 10:00:00,000") 1 7))
     = String.length "2020-05-17 10:00:00,000" + 48.
Proof.
  apply (@rotating_logging_lines_have_a_fixed_width
           (fun _ => "2020-05-17 10:00:00,000") 1 7).
  lia.
Defined.

(** ** From the worker's logging action to the sink *)

(** What [worker_process] pushes when run with [worker_configurer]: one
    record per loop step. *)
Lemma worker_process_with_records (nsteps : nat) (env : Worker.Env) :
  Worker.worker_process_with nsteps Worker.worker_configurer env
  = map (fun i => mkLogRecord
                    (nth (Worker.choice env i mod 3) LOGGERS EmptyString)
                    LEVEL "DEBUG" (Worker.pid env) (Worker.clock env i)
                    ("Child proces " ++ Worker.dquote ++ Worker.proc_name env
                       ++ Worker.dquote ++ " step " ++ show_nat i
                       ++ ": slept for " ++ Worker.random env i ++ "[s] ")%string)
        (seq 0 nsteps).
Proof.
  unfold Worker.worker_process_with. cbv zeta. apply flat_map_singletons.
  intros i. apply worker_step_one_record.
Qed.

(** C10. No severity filter stands between a worker's logging action and the
    sink. On the consumer side, whatever the levels of the records in the
    queue, the loop passes every one of them, in order, to [handle] of the
    logger named in the record and returns on the sentinel: the logging
    state at the end is the one these calls lead to. On the producer side the
    root level [DEBUG] set by [worker_configurer] lets every logging action
    through: [worker_process] pushes one record per pass of its loop, each at
    level [LEVEL]. And every record pushed is dispatched: a run of the
    processes is finite, can go on as long as [main] has not returned, and
    when [main] has returned the listener has returned after passing to
    [handle] exactly the records the workers pushed, each worker's being
    those of [worker_process], and the queue is empty. (The configurer
    succeeds and the handler fails with instances of [Exception] only.) *)
Theorem no_severity_filter_on_the_way_to_the_sink
        (L : Type) (handle : string -> LogRecord -> L -> outcome L)
        (configurer : L -> outcome L) (l0 lc : L) (nworkers nsteps : nat)
        (envs : nat -> Worker.Env) (sched : list System.agent) (s : System.t L)
        (evs : list LogRecord) (after_sentinel : list Listener.get_result)
        (st : Listener.state L) (env : Worker.Env) :
  raises_only_Exception handle ->
  configurer l0 = Ret lc ->
  System.exec handle configurer l0 nworkers nsteps envs sched (System.init L) = Some s ->
  Listener.listener_loop handle
    (got_records evs ++ Listener.Got PyNone :: after_sentinel) st
  = Listener.mkRun Listener.Returned
      (Listener.mkState
         (handle_each handle evs (Listener.logging st))
         (Listener.stderr st ++ diagnostics handle evs (Listener.logging st))
         (Listener.popped st ++ map PyLogRecord evs ++ [PyNone])
         (Listener.handled st ++ evs))
      after_sentinel
  /\ (List.length (Worker.worker_process_with nsteps Worker.worker_configurer env) = nsteps
      /\ forall r,
          In r (Worker.worker_process_with nsteps Worker.worker_configurer env) ->
          levelno r = LEVEL)
  /\ List.length sched <= 2 * nworkers * nsteps + 5 * nworkers + 9
  /\ (~ System.main_done nworkers s ->
      exists a s', System.step handle configurer l0 nworkers nsteps envs a s = Some s')
  /\ (System.main_done nworkers s ->
      exists order,
        (forall k, k < nworkers ->
                   System.emitted envs (filter (fun ik => (fst ik =? k)%nat) order)
                   = Worker.worker_process_with nsteps Worker.worker_configurer (envs k))
        /\ List.length (System.emitted envs order) = nworkers * nsteps
        /\ System.listener s
           = System.LExited Listener.Returned
               (Listener.mkState
                  (handle_each handle (System.emitted envs order) lc)
                  (diagnostics handle (System.emitted envs order) lc)
                  (map PyLogRecord (System.emitted envs order) ++ [PyNone])
                  (System.emitted envs order))
        /\ System.queued s = []).
Proof.
  intros Hcaught Hc Hex.
  pose proof (invariant_exec sched
                (invariant_init handle configurer l0 nworkers nsteps envs) Hex) as Hinv.
  split; [|split; [|split; [|split]]].
  - rewrite listener_loop_records by exact Hcaught.
    rewrite listener_loop_sentinel. unfold Listener.on_popped. cbn.
    rewrite <- app_assoc. reflexivity.
  - rewrite worker_process_with_records. split.
    + rewrite length_map. apply length_seq.
    + intros r Hr. apply in_map_iff in Hr as (i & <- & _). reflexivity.
  - pose proof (exec_measure sched
                  (invariant_init handle configurer l0 nworkers nsteps envs) Hex) as H.
    rewrite measure_init in H. lia.
  - intros Hnd. exact (progress Hinv Hnd).
  - intros Hdone.
    destruct (main_done_delivers Hinv Hdone Hc Hcaught) as (order & Hin & Hout & Hl & Hq).
    exists order. split.
    { intros k Hk. apply emitted_of_finished_worker. exact (Hin k Hk). }
    split.
    { rewrite length_emitted. apply length_order; [|exact Hout].
      intros k Hk. rewrite (Hin k Hk). apply length_seq. }
    split; [exact Hl|exact Hq].
Qed.

Lemma no_severity_filter_on_the_way_to_the_sink_witness :
  Listener.logging
    (Listener.final
       (Listener.listener_loop Logger_handle
          (got_records records_at_all_levels ++ Listener.Got PyNone :: [])
          (Sample.start (Sample.configured []))))
  = handle_each Logger_handle records_at_all_levels (Sample.configured [])
  /\ System.main_done 3 (run_3x5 Sample.schedule_3x5)
  /\ exists order,
      List.length (System.emitted Sample.env order) = 3 * 5
      /\ System.listener (run_3x5 Sample.schedule_3x5)
         = System.LExited Listener.Returned
             (Listener.mkState
                (handle_each Logger_handle (System.emitted Sample.env order)
                             (Sample.configured []))
                (diagnostics Logger_handle (System.emitted Sample.env order)
                             (Sample.configured []))
                (map PyLogRecord (System.emitted Sample.env order) ++ [PyNone])
                (System.emitted Sample.env order)).
Proof.
  assert (Hdone : System.main_done 3 (run_3x5 Sample.schedule_3x5))
    by (vm_compute; reflexivity).
  destruct (@no_severity_filter_on_the_way_to_the_sink
              Logging Logger_handle (listener_configurer Sample.fresh_disk)
              (mkLogging None []) (Sample.configured []) 3 5 Sample.env
              Sample.schedule_3x5 (run_3x5 Sample.schedule_3x5)
              records_at_all_levels [] (Sample.start (Sample.configured []))
              (Sample.env 0))
    as (H1 & _ & _ & _ & H5).
  - exact Logger_handle_raises_only_Exception.
  - reflexivity.
  - vm_compute. reflexivity.
  - split; [rewrite H1; reflexivity|]. split; [exact Hdone|].
    destruct (H5 Hdone) as (order & _ & Hlen & Hl & _).
    exists order. split; [exact Hlen|exact Hl].
Defined.

(** The records at all levels, from [NOTSET] up, all reach the log file of
    the listener: four records, four lines. *)
Example records_at_all_levels_are_written :
  match root_handler
          (handle_each Logger_handle records_at_all_levels (Sample.configured [])) with
  | Some fh => List.length (RotatingSink.active fh) = 4
  | None => False
  end.
Proof. vm_compute. reflexivity. Qed.
